(** * Meet App (app3.py): name normalisation, duplicate-free logging and
      fuzzy retrieval

    A shallow embedding of the core of [app3.py]: [normalize_name],
    [load_interactions], [save_interaction], [load_interaction],
    [parse_query_with_groq] and the two tab handlers, followed by the
    properties of these functions.

    Modelling conventions.
    - A Python [str] is a [string]; its characters are read as the code
      points U+0000..U+00FF, a range closed under [str.lower] and on which
      [str.isspace] and [str.lower] are the tables given below.
    - The Supabase table is a list of rows in response order; every
      [execute()] is a request that the store may fail, which is decided by
      a fault schedule carried in the world.
    - Streamlit output ([st.error], [st.success], ...) is a trace of events.
    - The language model, [json.loads] and fuzzywuzzy's scorer are external
      and enter as Section variables. *)

From Stdlib Require Import String Ascii List NArith Lia Bool.
From stdpp Require Import base decidable list gmap sets strings.

Set Warnings "-register-all".

Local Open Scope string_scope.
Local Open Scope list_scope.

(** ** Python strings *)

Module PyStr.

(** [str.isspace] on one character, as used by [str.strip()] without
    argument: TAB..CR, FS..US, SPACE, NEL and NBSP. *)
Definition isspace (c : ascii) : bool :=
  let n := N_of_ascii c in
  (((9 <=? n) && (n <=? 13)) || ((28 <=? n) && (n <=? 32))
   || (n =? 133) || (n =? 160))%N.

(** [str.lower] on one character: A..Z and the Latin-1 capitals
    U+00C0..U+00DE (but not the multiplication sign U+00D7) move up by 32. *)
Definition lower_char (c : ascii) : ascii :=
  let n := N_of_ascii c in
  if (((65 <=? n) && (n <=? 90))
      || ((192 <=? n) && (n <=? 222) && negb (n =? 215)))%N
  then ascii_of_N (n + 32)
  else c.

Fixpoint lower (s : string) : string :=
  match s with
  | EmptyString => EmptyString
  | String c s' => String (lower_char c) (lower s')
  end.

Fixpoint lstrip (s : string) : string :=
  match s with
  | EmptyString => EmptyString
  | String c s' => if isspace c then lstrip s' else s
  end.

Fixpoint rstrip (s : string) : string :=
  match s with
  | EmptyString => EmptyString
  | String c s' =>
      match rstrip s' with
      | EmptyString => if isspace c then EmptyString else String c EmptyString
      | r => String c r
      end
  end.

(** [s.strip()]: drop the whitespace run at each end. *)
Definition strip (s : string) : string := rstrip (lstrip s).

(** Python truthiness of a [str]. *)
Definition nonempty (s : string) : bool :=
  match s with EmptyString => false | String _ _ => true end.

(** Vocabulary for stating what [strip] does. *)
Fixpoint all_space (s : string) : bool :=
  match s with
  | EmptyString => true
  | String c s' => isspace c && all_space s'
  end.

Definition first_char (s : string) : option ascii :=
  match s with EmptyString => None | String c _ => Some c end.

Fixpoint last_char (s : string) : option ascii :=
  match s with
  | EmptyString => None
  | String c EmptyString => Some c
  | String _ s' => last_char s'
  end.

Definition is_space_opt (o : option ascii) : bool :=
  match o with Some c => isspace c | None => false end.

(** A string with no whitespace at either end. *)
Definition trimmed (s : string) : bool :=
  negb (is_space_opt (first_char s)) && negb (is_space_opt (last_char s)).

End PyStr.

Import PyStr.

(** [normalize_name(name)]: [name.strip().lower()]. *)
Definition normalize_name (name : string) : string := lower (strip name).

(** ** Data model *)

(** A row of the [interactions] table
    ([name TEXT PRIMARY KEY, details TEXT NOT NULL]). *)
Record row := Row { row_name : string; row_details : string }.

(** The Python values that [json.loads] produces; [None] is JSON [null]. *)
Inductive value :=
| PyNone
| PyBool (b : bool)
| PyNum (literal : string)
| PyStr (s : string)
| PyList (items : list value)
| PyDict (fields : list (string * value)).

(** Exceptions, as far as the handlers tell them apart. *)
Inductive exn :=
| JSONDecodeError (msg : string)
| IndexError
| AttributeError
| KeyError
| TypeError
| UnboundLocalError
| APIError (msg : string)
| OtherException (msg : string).

(** The texts handed to Streamlit, by template and interpolated values. *)
Inductive message :=
| MsgAlreadyExists (name normalized_name : string)
| MsgErrorSaving (e : exn)
| MsgProvideBoth
| MsgSaved (person_name : string)
| MsgEnterQuery
| MsgGroqEmpty
| MsgParsedInvalid (parsed_result : value)
| MsgJsonFailed (raw_content : string) (e : exn)
| MsgGroqError (e : exn)
| MsgInteractionWith (person_name : value)
| MsgInteractionBox (details : string)
| MsgNoInteraction (person_name : value)
| MsgCouldntIdentify.

Inductive ui_event :=
| UiError (m : message)
| UiSuccess (m : message)
| UiInfo (body : value)
| UiWrite (m : message)
| UiMarkdown (m : message).

(** The world a handler runs in: the table behind Supabase, what the store
    will do with the coming requests ([Some e]: raise [e]; [None] or past
    the end of the schedule: answer), and what Streamlit has shown. *)
Record world := World {
  table : list row;
  faults : list (option exn);
  ui : list ui_event
}.

(** ** A state and exception monad for the handlers *)

Inductive result (A : Type) :=
| Ok (a : A)
| Raise (e : exn).
Arguments Ok {A} a.
Arguments Raise {A} e.

Definition M (A : Type) : Type := world -> result A * world.

Definition ret {A} (a : A) : M A := fun w => (Ok a, w).

Definition raise {A} (e : exn) : M A := fun w => (Raise e, w).

Definition bind {A B} (m : M A) (k : A -> M B) : M B := fun w =>
  match m w with
  | (Ok a, w') => k a w'
  | (Raise e, w') => (Raise e, w')
  end.

(** [try: body except Exception as e: handler e]; what [body] did to the
    world before raising stays done. *)
Definition try_except {A} (body : M A) (handler : exn -> M A) : M A := fun w =>
  match body w with
  | (Ok a, w') => (Ok a, w')
  | (Raise e, w') => handler e w'
  end.

(** The outcome of a call into an external library. *)
Definition call {A} (r : result A) : M A := fun w => (r, w).

Notation "x <- m ;; k" := (bind m (fun x => k))
  (at level 62, m at next level, right associativity).
Notation "m ;;; k" := (bind m (fun _ => k))
  (at level 62, right associativity).

(** ** Streamlit *)

Definition emit (e : ui_event) : M unit := fun w =>
  (Ok tt, World (table w) (faults w) (ui w ++ [e])).

Definition st_error (m : message) : M unit := emit (UiError m).
Definition st_success (m : message) : M unit := emit (UiSuccess m).
Definition st_info (body : value) : M unit := emit (UiInfo body).
Definition st_write (m : message) : M unit := emit (UiWrite m).
Definition st_markdown (m : message) : M unit := emit (UiMarkdown m).

(** ** The store *)

(** One [execute()]: the head of the fault schedule is consumed; unless it
    raises, [op] reads or changes the table. *)
Definition request {A} (op : list row -> result A * list row) : M A := fun w =>
  match faults w with
  | Some e :: fs => (Raise e, World (table w) fs (ui w))
  | None :: fs => let (r, t) := op (table w) in (r, World t fs (ui w))
  | [] => let (r, t) := op (table w) in (r, World t [] (ui w))
  end.

(** [supabase.table("interactions").select("*").execute().data] *)
Definition select_all : M (list row) := request (fun t => (Ok t, t)).

(** [supabase.table("interactions").select("name").execute().data], each
    returned row being its [name]. *)
Definition select_name : M (list string) :=
  request (fun t => (Ok (row_name <$> t), t)).

(** [supabase.table("interactions").insert({...}).execute()]: the primary key
    is the raw [name]. *)
Definition insert (r : row) : M unit :=
  request (fun t =>
    if bool_decide (row_name r ∈ row_name <$> t)
    then (Raise (APIError "duplicate key value violates unique constraint"), t)
    else (Ok tt, t ++ [r])).

(** ** Python dicts with string keys, in insertion order *)

Section Dict.
Context {V : Type}.

Fixpoint dict_get (k : string) (d : list (string * V)) : option V :=
  match d with
  | [] => None
  | (k', v) :: d' => if String.eqb k k' then Some v else dict_get k d'
  end.

(** [d[k] = v]: an existing key keeps its place. *)
Fixpoint dict_set (k : string) (v : V) (d : list (string * V))
  : list (string * V) :=
  match d with
  | [] => [(k, v)]
  | (k', v') :: d' =>
      if String.eqb k k' then (k', v) :: d' else (k', v') :: dict_set k v d'
  end.

Definition dict_keys (d : list (string * V)) : list string := fst <$> d.

End Dict.

(** ** The application *)

(** The dict comprehension of [load_interactions]. *)
Definition interactions_of (data : list row) : list (string * string) :=
  fold_left
    (fun d r => dict_set (normalize_name (row_name r)) (row_details r) d)
    data [].

Definition load_interactions : M (list (string * string)) :=
  data <- select_all ;;
  ret (interactions_of data).

Definition save_interaction (name details : string) : M bool :=
  try_except
    (let normalized_name := normalize_name name in
     existing <- select_name ;;
     let existing_names : gset string :=
       list_to_set (normalize_name <$> existing) in
     if bool_decide (normalized_name ∈ existing_names) then
       st_error (MsgAlreadyExists name normalized_name) ;;;
       ret false
     else
       insert (Row name details) ;;;
       ret true)
    (fun e => st_error (MsgErrorSaving e) ;;; ret false).

(** Python truthiness of [None] or a [str]. *)
Definition truthy (o : option string) : bool :=
  match o with Some s => nonempty s | None => false end.

(** [normalize_name] applied to whatever the caller passes: only a [str] has
    [strip]. *)
Definition normalize_value (name : value) : M string :=
  match name with
  | PyStr s => ret (normalize_name s)
  | _ => raise AttributeError
  end.

(** A chat completion, reduced to [choices[i].message.content]. *)
Definition chat_completion : Type := list (option string).

(** What the application calls but does not define. [groq_create query] is
    [groq_client.chat.completions.create] on the fixed system prompt and
    [query]; [json_loads] is [json.loads]; [scorer query choice] is the
    0..100 score fuzzywuzzy's default processor and scorer give. *)
Record externals := Externals {
  groq_create : string -> result chat_completion;
  json_loads : string -> result value;
  scorer : string -> string -> nat
}.

Section App.
Variable ext : externals.

(** Modelled from the spec: fuzzywuzzy's [process.extractOne] is not part of
    the repository. It scores every choice against the query and returns the
    first best-scoring pair, [None] for no choices. *)
Fixpoint best_of (query : string) (best : string * nat) (choices : list string)
  : string * nat :=
  match choices with
  | [] => best
  | c :: rest =>
      let s := scorer ext query c in
      if (snd best <? s)%nat then best_of query (c, s) rest
      else best_of query best rest
  end.

Definition extractOne (query : string) (choices : list string)
  : option (string * nat) :=
  match choices with
  | [] => None
  | c :: rest => Some (best_of query (c, scorer ext query c) rest)
  end.

(** The [else] branch of [load_interaction]: the best-scoring stored name,
    taken when it scores 80 or more. *)
Definition fuzzy_match (interactions : list (string * string))
    (normalized_name : string) : M (option string) :=
  let all_names := dict_keys interactions in
  match all_names with
  | _ :: _ =>
      match extractOne normalized_name all_names with
      | Some (best_match, score) =>
          if (80 <=? score)%nat then
            match dict_get best_match interactions with
            | Some found => ret (Some found)
            | None => raise KeyError
            end
          else ret None
      | None => raise TypeError
      end
  | [] => ret None
  end.

Definition load_interaction (name : value) : M (option string) :=
  interactions <- load_interactions ;;
  normalized_name <- normalize_value name ;;
  let exact_match := dict_get normalized_name interactions in
  if truthy exact_match then ret exact_match
  else fuzzy_match interactions normalized_name.

Definition empty_result : value :=
  PyDict [("name", PyNone); ("message", PyNone)].

(** [response.choices[0].message.content.strip()] *)
Definition first_content (response : chat_completion) : M string :=
  match response with
  | [] => raise IndexError
  | None :: _ => raise AttributeError
  | Some content :: _ => ret (strip content)
  end.

(** [isinstance(parsed_result, dict) and "name" in parsed_result] *)
Definition has_name (parsed_result : value) : bool :=
  match parsed_result with
  | PyDict fields => bool_decide (is_Some (dict_get "name" fields))
  | _ => false
  end.

(** The two [except] clauses. The first one formats [raw_content], a local
    that exists only once its assignment has run: [raw_content] is [None]
    here when the exception came from before that point. *)
Definition on_exception (raw_content : option string) (e : exn) : M value :=
  match e with
  | JSONDecodeError _ =>
      match raw_content with
      | Some raw => st_error (MsgJsonFailed raw e) ;;; ret empty_result
      | None => raise UnboundLocalError
      end
  | _ => st_error (MsgGroqError e) ;;; ret empty_result
  end.

Definition parse_query_with_groq (query : string) : M value :=
  try_except
    (raw_content <- (response <- call (groq_create ext query) ;;
                     first_content response) ;;
     try_except
       (if negb (nonempty raw_content) then
          st_error MsgGroqEmpty ;;;
          ret empty_result
        else
          parsed_result <- call (json_loads ext raw_content) ;;
          if negb (has_name parsed_result) then
            st_error (MsgParsedInvalid parsed_result) ;;;
            ret empty_result
          else ret parsed_result)
       (on_exception (Some raw_content)))
    (on_exception None).

(** [result.get(key)] *)
Definition py_get (key : string) (d : value) : M value :=
  match d with
  | PyDict fields => ret (default PyNone (dict_get key fields))
  | _ => raise AttributeError
  end.

Definition is_not_None (v : value) : bool :=
  match v with PyNone => false | _ => true end.

(** Tab 1, on [submit_button]. *)
Definition log_tab (person_name interaction_details : string) : M unit :=
  if negb (nonempty person_name) || negb (nonempty interaction_details) then
    st_error MsgProvideBoth
  else
    saved <- save_interaction person_name interaction_details ;;
    if saved : bool then st_success (MsgSaved person_name) else ret tt.

(** Tab 2, on [retrieve_button]. *)
Definition retrieve_tab (query : string) : M unit :=
  if negb (nonempty query) then st_error MsgEnterQuery
  else
    result <- parse_query_with_groq query ;;
    person_name <- py_get "name" result ;;
    message <- py_get "message" result ;;
    if is_not_None person_name then
      details <- load_interaction person_name ;;
      match details with
      | Some d =>
          if nonempty d then
            st_write (MsgInteractionWith person_name) ;;;
            st_markdown (MsgInteractionBox d)
          else st_error (MsgNoInteraction person_name)
      | None => st_error (MsgNoInteraction person_name)
      end
    else if is_not_None message then st_info message
    else st_error MsgCouldntIdentify.

End App.

(** ** Vocabulary for the statements *)

Definition next_fault (w : world) : option exn :=
  match faults w with
  | f :: _ => f
  | [] => None
  end.

(** The store answers the next request. *)
Definition store_answers (w : world) : Prop := next_fault w = None.

(** The world after one request that left the table alone. *)
Definition tick (w : world) : world :=
  World (table w) (tail (faults w)) (ui w).

(** The world after Streamlit has shown [events]. *)
Definition shows (events : list ui_event) (w : world) : world :=
  World (table w) (faults w) (ui w ++ events).

(** The candidate set: the normalized names of the stored rows. *)
Definition normalized_names (t : list row) : list string :=
  (λ r, normalize_name (row_name r)) <$> t.

(** No two rows with equal normalized names. *)
Definition unique_normalized (t : list row) : Prop :=
  NoDup (normalized_names t).

(** The operations of the logging pipeline and the states they reach. *)
Inductive logging_op :=
| OpSave (name details : string)
| OpLogTab (person_name interaction_details : string).

Definition run_op (op : logging_op) (w : world) : world :=
  match op with
  | OpSave name details => (save_interaction name details w).2
  | OpLogTab person_name interaction_details =>
      (log_tab person_name interaction_details w).2
  end.

Inductive reachable (w0 : world) : world -> Prop :=
| reach_start : reachable w0 w0
| reach_step (w : world) (op : logging_op) :
    reachable w0 w -> reachable w0 (run_op op w).

(** ** The retrieval pipeline in the spec's terms *)

(** What the extractor's dict amounts to: a name when [name] is not [None],
    else a message when [message] is not [None], else nothing. *)
Inductive intent :=
| IName (n : value)
| IMessage (m : value)
| IEmpty.

Definition intent_of (result : value) : intent :=
  match result with
  | PyDict fields =>
      match default PyNone (dict_get "name" fields),
            default PyNone (dict_get "message" fields) with
      | PyNone, PyNone => IEmpty
      | PyNone, m => IMessage m
      | n, _ => IName n
      end
  | _ => IEmpty
  end.

(** The four outcomes of [retrieve], as what Streamlit shows. *)
Definition found (n : value) (d : string) : list ui_event :=
  [UiWrite (MsgInteractionWith n); UiMarkdown (MsgInteractionBox d)].
Definition notFound (n : value) : list ui_event :=
  [UiError (MsgNoInteraction n)].
Definition info (m : value) : list ui_event := [UiInfo m].
Definition unresolved : list ui_event := [UiError MsgCouldntIdentify].

(** [MatchResolver.resolve], following the spec's words: the normalized
    query when it is a candidate, else the best-scoring candidate when it
    scores 80 or more. *)
Definition resolve (ext : externals) (query : string)
    (candidates : list string) : option string :=
  if bool_decide (normalize_name query ∈ candidates) then
    Some (normalize_name query)
  else
    match extractOne ext (normalize_name query) candidates with
    | Some (best, score) => if (80 <=? score)%nat then Some best else None
    | None => None
    end.

(** The behaviours of the language-model call that the extractor is to
    survive: the call raises; the body is empty; the body does not parse;
    the parsed value is not a dict with a [name]. *)
Inductive model_failure (ext : externals) (query : string) : Prop :=
| call_raises (e : exn) :
    groq_create ext query = Raise e -> model_failure ext query
| empty_body (content : string) (rest : chat_completion) :
    groq_create ext query = Ok (Some content :: rest) ->
    strip content = "" ->
    model_failure ext query
| unparseable_body (content : string) (rest : chat_completion) (e : exn) :
    groq_create ext query = Ok (Some content :: rest) ->
    strip content <> "" ->
    json_loads ext (strip content) = Raise e ->
    model_failure ext query
| no_name_field (content : string) (rest : chat_completion) (parsed : value) :
    groq_create ext query = Ok (Some content :: rest) ->
    strip content <> "" ->
    json_loads ext (strip content) = Ok parsed ->
    has_name parsed = false ->
    model_failure ext query.

(** ** Stand-ins for the externals in the worked examples *)

(** A scorer that gives every pair the same score. It is used on inputs that
    fuzzywuzzy scores alike: 100 for names that are equal once punctuation
    is dropped, 0 for a query without a letter or digit. *)
Definition scores (n : nat) : string -> string -> nat := fun _ _ => n.

(** Externals whose model replies [reply], read by [json.loads] as
    [parsed]. *)
Definition canned (reply : result chat_completion) (parsed : result value)
    (score : string -> string -> nat) : externals :=
  Externals (fun _ => reply) (fun _ => parsed) score.

(** Externals for lookups alone: the model is not reached. *)
Definition offline (score : string -> string -> nat) : externals :=
  canned (Raise (OtherException "offline")) (Raise (OtherException "offline"))
         score.

(** Externals whose model names the person [n]. The reply text stands for
    the JSON object that [json.loads] reads. *)
Definition names_person (n : string) (score : string -> string -> nat)
    : externals :=
  canned (Ok [Some "{name: n, message: null}"])
         (Ok (PyDict [("name", PyStr n); ("message", PyNone)]))
         score.

(** A run of log-tab submissions, each a name and its details. *)
Definition log_all (submissions : list (string * string)) (w : world) : world :=
  fold_left (fun w s => (log_tab s.1 s.2 w).2) submissions w.

(** ** Facts about [strip] and [lower] *)

Section StringFacts.

Ltac each_char c := destruct c as [[|] [|] [|] [|] [|] [|] [|] [|]].

Lemma lower_char_idem (c : ascii) : lower_char (lower_char c) = lower_char c.
Proof. each_char c; reflexivity. Qed.

Lemma isspace_lower_char (c : ascii) : isspace (lower_char c) = isspace c.
Proof. each_char c; reflexivity. Qed.

Lemma lower_idem (s : string) : lower (lower s) = lower s.
Proof. induction s as [|c s IH]; simpl; [|rewrite lower_char_idem, IH]; reflexivity. Qed.

Lemma lower_lstrip (s : string) : lower (lstrip s) = lstrip (lower s).
Proof.
  induction s as [|c s IH]; simpl; [reflexivity|].
  rewrite isspace_lower_char. destruct (isspace c); [exact IH|reflexivity].
Qed.

Lemma lower_rstrip (s : string) : lower (rstrip s) = rstrip (lower s).
Proof.
  induction s as [|c s IH]; simpl; [reflexivity|].
  rewrite <- IH, isspace_lower_char.
  destruct (rstrip s) as [|c' r]; simpl; [destruct (isspace c)|]; reflexivity.
Qed.

Lemma lower_strip (s : string) : lower (strip s) = strip (lower s).
Proof. unfold strip. rewrite lower_rstrip, lower_lstrip. reflexivity. Qed.

Lemma lstrip_first (s : string) : is_space_opt (first_char (lstrip s)) = false.
Proof.
  induction s as [|c s IH]; simpl; [reflexivity|].
  destruct (isspace c) eqn:E; [exact IH|simpl; exact E].
Qed.

Lemma lstrip_fixed (s : string) :
  is_space_opt (first_char s) = false -> lstrip s = s.
Proof. destruct s as [|c s]; simpl; [reflexivity|]. intros ->. reflexivity. Qed.

Lemma rstrip_first (s : string) :
  is_space_opt (first_char s) = false ->
  is_space_opt (first_char (rstrip s)) = false.
Proof.
  destruct s as [|c s]; simpl; [reflexivity|]. intros E.
  destruct (rstrip s); simpl; [rewrite E|]; simpl; exact E.
Qed.

Lemma rstrip_last (s : string) : is_space_opt (last_char (rstrip s)) = false.
Proof.
  induction s as [|c s IH]; simpl; [reflexivity|].
  destruct (rstrip s) as [|c' r] eqn:R.
  - destruct (isspace c) eqn:E; simpl; [reflexivity|exact E].
  - exact IH.
Qed.

Lemma rstrip_fixed (s : string) :
  is_space_opt (last_char s) = false -> rstrip s = s.
Proof.
  induction s as [|c s IH]; simpl; [reflexivity|].
  destruct s as [|c' s'].
  - simpl. intros ->. reflexivity.
  - intros E. rewrite (IH E). reflexivity.
Qed.

Lemma strip_trimmed (s : string) : trimmed (strip s) = true.
Proof.
  unfold trimmed, strip.
  rewrite rstrip_last, (rstrip_first _ (lstrip_first s)). reflexivity.
Qed.

Lemma strip_fixed (s : string) : trimmed s = true -> strip s = s.
Proof.
  unfold trimmed, strip. intros [F L]%andb_true_iff.
  apply negb_true_iff in F, L.
  rewrite (lstrip_fixed _ F). apply rstrip_fixed, L.
Qed.

Lemma strip_idem (s : string) : strip (strip s) = strip s.
Proof. apply strip_fixed, strip_trimmed. Qed.

Lemma append_nil_l (s : string) : EmptyString +:+ s = s.
Proof. reflexivity. Qed.

Lemma append_cons (c : ascii) (s t : string) :
  String c s +:+ t = String c (s +:+ t).
Proof. reflexivity. Qed.

Lemma lstrip_split (s : string) :
  exists pre, s = pre +:+ lstrip s /\ all_space pre = true.
Proof.
  induction s as [|c s (pre & E & A)].
  - exists EmptyString. split; reflexivity.
  - cbn [lstrip]. destruct (isspace c) eqn:C.
    + exists (String c pre). split.
      * rewrite append_cons. f_equal. exact E.
      * cbn [all_space]. rewrite C. exact A.
    + exists EmptyString. split; reflexivity.
Qed.

Lemma rstrip_split (s : string) :
  exists post, s = rstrip s +:+ post /\ all_space post = true.
Proof.
  induction s as [|c s (post & E & A)].
  - exists EmptyString. split; reflexivity.
  - cbn [rstrip]. destruct (rstrip s) as [|c' r] eqn:R.
    + rewrite append_nil_l in E. destruct (isspace c) eqn:C.
      * exists (String c post). split.
        -- rewrite append_nil_l. f_equal. exact E.
        -- cbn [all_space]. rewrite C. exact A.
      * exists post. split; [|exact A].
        rewrite append_cons, append_nil_l. f_equal. exact E.
    + exists post. split; [|exact A].
      rewrite append_cons. f_equal. exact E.
Qed.

Lemma strip_split (s : string) :
  exists pre post,
    s = pre +:+ strip s +:+ post /\ all_space pre = true /\ all_space post = true.
Proof.
  destruct (lstrip_split s) as (pre & E1 & A1).
  destruct (rstrip_split (lstrip s)) as (post & E2 & A2).
  exists pre, post. unfold strip. rewrite <- E2, <- E1. auto.
Qed.

Lemma lstrip_all_space_app (pre s : string) :
  all_space pre = true -> lstrip (pre +:+ s) = lstrip s.
Proof.
  induction pre as [|c pre IH]; [reflexivity|].
  rewrite append_cons. cbn [all_space lstrip].
  intros [-> A]%andb_true_iff. exact (IH A).
Qed.

Lemma lstrip_all_space (post : string) :
  all_space post = true -> lstrip post = EmptyString.
Proof.
  induction post as [|c post IH]; simpl; [reflexivity|].
  intros [-> A]%andb_true_iff. exact (IH A).
Qed.

Lemma rstrip_all_space (post : string) :
  all_space post = true -> rstrip post = EmptyString.
Proof.
  induction post as [|c post IH]; simpl; [reflexivity|].
  intros [-> A]%andb_true_iff. rewrite (IH A). reflexivity.
Qed.

Lemma rstrip_app_all_space (s post : string) :
  all_space post = true -> rstrip (s +:+ post) = rstrip s.
Proof.
  intros A. induction s as [|c s IH].
  - rewrite append_nil_l. apply rstrip_all_space, A.
  - rewrite append_cons. cbn [rstrip]. rewrite IH. reflexivity.
Qed.

(** Whatever whitespace surrounds a trimmed core, [strip] returns the core. *)
Lemma strip_sandwich (pre core post : string) :
  all_space pre = true -> all_space post = true -> trimmed core = true ->
  strip (pre +:+ core +:+ post) = core.
Proof.
  intros A1 A2 T. unfold strip.
  rewrite (lstrip_all_space_app _ _ A1).
  destruct core as [|c core].
  - rewrite append_nil_l, (lstrip_all_space _ A2). reflexivity.
  - unfold trimmed in T.
    apply andb_true_iff in T as [F L]. apply negb_true_iff in F, L.
    rewrite (lstrip_fixed (String c core +:+ post)).
    + rewrite (rstrip_app_all_space _ _ A2). apply rstrip_fixed, L.
    + rewrite append_cons. exact F.
Qed.

End StringFacts.

(** ** Normalisation *)

(** Any way of reading [raw] as whitespace, trimmed core, whitespace yields
    the lower-cased core. *)
Lemma normalize_name_sandwich (pre core post : string) :
  all_space pre = true -> all_space post = true -> trimmed core = true ->
  normalize_name (pre +:+ core +:+ post) = lower core.
Proof.
  intros A1 A2 T. unfold normalize_name.
  rewrite (strip_sandwich _ _ _ A1 A2 T). reflexivity.
Qed.

(** C5. [normalize_name raw] is [raw] without its leading and trailing
    whitespace, lower-cased: [raw] splits into a whitespace prefix, a core
    with no whitespace at either end and a whitespace suffix, and for every
    such splitting the result is the lower-cased core; ["  John  "] and
    ["john"] both give ["john"]. *)
Theorem normalize_name_trims_and_lowers :
  (forall raw : string,
      exists pre core post,
        raw = pre +:+ core +:+ post
        /\ all_space pre = true /\ all_space post = true
        /\ trimmed core = true
        /\ normalize_name raw = lower core)
  /\ (forall pre core post : string,
        all_space pre = true -> all_space post = true ->
        trimmed core = true ->
        normalize_name (pre +:+ core +:+ post) = lower core)
  /\ normalize_name "  John  " = normalize_name "john"
  /\ normalize_name "john" = "john".
Proof.
  split; [|split; [exact normalize_name_sandwich|split; reflexivity]].
  intros raw. destruct (strip_split raw) as (pre & post & E & A1 & A2).
  exists pre, (strip raw), post.
  repeat split; auto using strip_trimmed.
Qed.

Lemma normalize_name_trims_and_lowers_witness :
  normalize_name ("  " +:+ "John Smith" +:+ " ") = lower "John Smith".
Proof.
  apply (proj1 (proj2 normalize_name_trims_and_lowers) "  " "John Smith" " ");
    reflexivity.
Defined.

(** C6. [normalize_name] is idempotent. *)
Theorem normalize_name_idempotent (s : string) :
  normalize_name (normalize_name s) = normalize_name s.
Proof.
  unfold normalize_name.
  rewrite <- lower_strip, strip_idem. apply lower_idem.
Qed.

(** ** The store and the monad *)

Section StoreFacts.

Lemma request_fault {A} (op : list row -> result A * list row) w e :
  next_fault w = Some e -> request op w = (Raise e, tick w).
Proof.
  unfold next_fault, request, tick.
  destruct (faults w) as [|[e'|] fs]; intros [= <-]. reflexivity.
Qed.

Lemma request_answers {A} (op : list row -> result A * list row) w :
  store_answers w ->
  request op w =
  ((op (table w)).1, World (op (table w)).2 (tail (faults w)) (ui w)).
Proof.
  unfold store_answers, next_fault, request.
  destruct (faults w) as [|[e'|] fs]; intros [=];
    destruct (op (table w)); reflexivity.
Qed.

Lemma existing_names_spec (n : string) (t : list row) :
  bool_decide
    (n ∈ (list_to_set (normalize_name <$> (row_name <$> t)) : gset string))
  = bool_decide (n ∈ normalized_names t).
Proof.
  apply bool_decide_ext. rewrite elem_of_list_to_set.
  unfold normalized_names. rewrite <- list_fmap_compose. reflexivity.
Qed.

Lemma raw_name_fresh (name : string) (t : list row) :
  normalize_name name ∉ normalized_names t -> name ∉ row_name <$> t.
Proof.
  intros N [r [-> I]]%list_elem_of_fmap. apply N.
  unfold normalized_names. apply list_elem_of_fmap. eauto.
Qed.

(** [save_interaction], request by request. *)
Lemma save_interaction_cases (name details : string) (w : world) :
  save_interaction name details w =
  match next_fault w with
  | Some e => (Ok false, shows [UiError (MsgErrorSaving e)] (tick w))
  | None =>
      if bool_decide (normalize_name name ∈ normalized_names (table w)) then
        (Ok false,
         shows [UiError (MsgAlreadyExists name (normalize_name name))] (tick w))
      else
        match next_fault (tick w) with
        | Some e =>
            (Ok false, shows [UiError (MsgErrorSaving e)] (tick (tick w)))
        | None =>
            (Ok true,
             World (table w ++ [Row name details])
                   (tail (tail (faults w))) (ui w))
        end
  end.
Proof.
  unfold save_interaction, try_except, bind, select_name.
  destruct (next_fault w) as [e|] eqn:F.
  - rewrite (request_fault _ _ _ F). reflexivity.
  - rewrite (request_answers _ _ F). cbn [fst snd].
    rewrite existing_names_spec.
    destruct (bool_decide _) eqn:D; [reflexivity|].
    apply bool_decide_eq_false in D. unfold insert.
    change (World (table w) (tail (faults w)) (ui w)) with (tick w).
    destruct (next_fault (tick w)) as [e|] eqn:F2.
    + rewrite (request_fault _ _ _ F2). reflexivity.
    + rewrite (request_answers _ _ F2). cbn [table row_name].
      rewrite (bool_decide_eq_false_2 _ (raw_name_fresh _ _ D)).
      reflexivity.
Qed.

End StoreFacts.

(** ** Logging *)

Section Logging.

(** A call either leaves the table alone or appends the new row, and it
    appends only a row whose normalized name is new. *)
Lemma save_interaction_table (name details : string) (w : world) :
  table (save_interaction name details w).2 = table w
  \/ ((normalize_name name ∉ normalized_names (table w))
      /\ table (save_interaction name details w).2
         = table w ++ [Row name details]).
Proof.
  rewrite save_interaction_cases.
  destruct (next_fault w); [left; reflexivity|].
  destruct (bool_decide _) eqn:D; [left; reflexivity|].
  apply bool_decide_eq_false in D.
  destruct (next_fault (tick w)); [left|right; split; [exact D|]]; reflexivity.
Qed.

Lemma log_tab_table (person_name interaction_details : string) (w : world) :
  table (log_tab person_name interaction_details w).2 = table w
  \/ table (log_tab person_name interaction_details w).2
     = table (save_interaction person_name interaction_details w).2.
Proof.
  unfold log_tab.
  destruct (negb (nonempty person_name) || negb (nonempty interaction_details));
    [left; reflexivity|right].
  unfold bind.
  destruct (save_interaction person_name interaction_details w) as [[[|]|e] w'];
    reflexivity.
Qed.

Lemma unique_normalized_snoc (t : list row) (name details : string) :
  unique_normalized t ->
  normalize_name name ∉ normalized_names t ->
  unique_normalized (t ++ [Row name details]).
Proof.
  unfold unique_normalized, normalized_names. intros U N.
  rewrite fmap_app. apply NoDup_app. repeat split; [exact U| |].
  - intros x I [->|[]%elem_of_nil]%elem_of_cons. exact (N I).
  - apply NoDup_singleton.
Qed.

Lemma run_op_unique (op : logging_op) (w : world) :
  unique_normalized (table w) -> unique_normalized (table (run_op op w)).
Proof.
  intros U.
  assert (forall name details,
             unique_normalized (table (save_interaction name details w).2)) as S.
  { intros name details.
    destruct (save_interaction_table name details w) as [->|[N ->]];
      [exact U|exact (unique_normalized_snoc _ _ _ U N)]. }
  destruct op as [name details|name details]; cbn [run_op]; [apply S|].
  destruct (log_tab_table name details w) as [->| ->]; [exact U|apply S].
Qed.

(** C1. When the normalized name of the call is the normalized name of a
    stored row, [save_interaction] returns [False] and the table is as
    before, whatever the store does; when the store answers, what is shown
    is the already-exists error. After [save_interaction("John", d1)] on a
    store that answers, [save_interaction("john", d2)] is such a call. *)
Theorem save_interaction_rejects_duplicate :
  (forall (w : world) (name details : string),
      (exists r, r ∈ table w
                 /\ normalize_name (row_name r) = normalize_name name) ->
      exists w',
        save_interaction name details w = (Ok false, w')
        /\ table w' = table w
        /\ (store_answers w ->
            w' = shows [UiError (MsgAlreadyExists name (normalize_name name))]
                       (tick w)))
  /\ (forall (w : world) (d1 d2 : string),
        store_answers w -> store_answers (tick w) ->
        let w1 := (save_interaction "John" d1 w).2 in
        exists w2,
          save_interaction "john" d2 w1 = (Ok false, w2)
          /\ table w2 = table w1
          /\ (store_answers w1 ->
              w2 = shows [UiError (MsgAlreadyExists "john" "john")] (tick w1))).
Proof.
  assert (forall (w : world) (name details : string),
      (exists r, r ∈ table w
                 /\ normalize_name (row_name r) = normalize_name name) ->
      exists w',
        save_interaction name details w = (Ok false, w')
        /\ table w' = table w
        /\ (store_answers w ->
            w' = shows [UiError (MsgAlreadyExists name (normalize_name name))]
                       (tick w))) as Dup.
  { intros w name details (r & I & E).
    assert (normalize_name name ∈ normalized_names (table w)) as P.
    { rewrite <- E. unfold normalized_names.
      apply (list_elem_of_fmap_2 (λ r, normalize_name (row_name r))), I. }
    rewrite save_interaction_cases, (bool_decide_eq_true_2 _ P).
    unfold store_answers. destruct (next_fault w) as [e|].
    - eexists. repeat split. discriminate.
    - eexists. repeat split. }
  split; [exact Dup|].
  intros w d1 d2 F1 F2 w1. apply (Dup w1 "john" d2). subst w1.
  rewrite save_interaction_cases, F1.
  destruct (bool_decide _) eqn:D.
  - apply bool_decide_eq_true in D.
    apply list_elem_of_fmap in D as (r & E & I).
    exists r. split; [exact I|]. rewrite <- E. reflexivity.
  - rewrite F2. exists (Row "John" d1). split; [|reflexivity].
    cbn [snd table]. apply elem_of_app. right. apply list_elem_of_here.
Qed.

Lemma save_interaction_rejects_duplicate_witness :
  exists w',
    save_interaction " JOHN " "lunch"
      (World [Row "John" "met for coffee"] [Some (APIError "timeout")] [])
    = (Ok false, w')
    /\ table w' = [Row "John" "met for coffee"].
Proof.
  destruct (proj1 save_interaction_rejects_duplicate
              (World [Row "John" "met for coffee"]
                     [Some (APIError "timeout")] [])
              " JOHN " "lunch") as (w' & E & T & _).
  - exists (Row "John" "met for coffee").
    split; [apply list_elem_of_here|reflexivity].
  - exists w'. split; [exact E|exact T].
Defined.

(** C2. From a table in which no two rows have equal normalized names,
    every state reached by logging operations has such a table. *)
Theorem logging_preserves_unique_normalized (w0 w : world) :
  unique_normalized (table w0) ->
  reachable w0 w ->
  unique_normalized (table w).
Proof.
  intros U R. induction R as [|w op R IH]; [exact U|].
  apply run_op_unique, IH.
Qed.

Lemma logging_preserves_unique_normalized_witness :
  unique_normalized
    (table (run_op (OpLogTab "Bob" "call")
              (run_op (OpSave " ann " "again")
                 (World [Row "Ann" "lunch"] [] [])))).
Proof.
  apply (logging_preserves_unique_normalized (World [Row "Ann" "lunch"] [] [])).
  - unfold unique_normalized. cbn. apply NoDup_singleton.
  - apply reach_step, reach_step, reach_start.
Defined.

(** C9, as the code has it. A submission whose name or details is the empty
    string is answered with the validation error alone: no request reaches
    the store and the table is as before. *)
Theorem log_tab_rejects_empty_input
    (person_name interaction_details : string) (w : world) :
  person_name = "" \/ interaction_details = "" ->
  log_tab person_name interaction_details w
  = (Ok tt, shows [UiError MsgProvideBoth] w).
Proof.
  unfold log_tab. intros [-> | ->]; [reflexivity|].
  rewrite orb_true_r. reflexivity.
Qed.

Lemma log_tab_rejects_empty_input_witness :
  log_tab "Ann" "" (World [Row "Bob" "call"] [Some (APIError "down")] [])
  = (Ok tt,
     World [Row "Bob" "call"] [Some (APIError "down")] [UiError MsgProvideBoth]).
Proof.
  apply (log_tab_rejects_empty_input "Ann" "").
  right. reflexivity.
Defined.

(** C9 as stated fails: a name of spaces, or details of spaces, passes the
    check and the row is inserted. *)
Lemma log_tab_accepts_blank_input :
  all_space "   " = true
  /\ log_tab "   " "met for coffee" (World [] [] [])
     = (Ok tt,
        World [Row "   " "met for coffee"] [] [UiSuccess (MsgSaved "   ")])
  /\ log_tab "Ann" "   " (World [] [] [])
     = (Ok tt, World [Row "Ann" "   "] [] [UiSuccess (MsgSaved "Ann")]).
Proof. repeat split; vm_compute; reflexivity. Qed.

End Logging.

(** ** Dicts and the stored interactions *)

Section DictFacts.

Lemma dict_get_set {V} (k k' : string) (v : V) (d : list (string * V)) :
  dict_get k (dict_set k' v d)
  = if String.eqb k k' then Some v else dict_get k d.
Proof.
  induction d as [|[k0 v0] d IH]; cbn [dict_set dict_get].
  - destruct (String.eqb_spec k k'); reflexivity.
  - destruct (String.eqb_spec k' k0) as [->|N]; cbn [dict_get].
    + destruct (String.eqb_spec k k0); reflexivity.
    + rewrite IH. destruct (String.eqb_spec k k0) as [->|]; [|reflexivity].
      destruct (String.eqb_spec k0 k') as [->|]; [contradiction|reflexivity].
Qed.

Lemma dict_keys_get {V} (k : string) (d : list (string * V)) :
  k ∈ dict_keys d <-> is_Some (dict_get k d).
Proof.
  unfold dict_keys. induction d as [|[k0 v0] d IH]; cbn [fmap list_fmap dict_get].
  - split; [intros []%elem_of_nil|intros [? [=]]].
  - cbn [fst]. rewrite elem_of_cons, IH.
    destruct (String.eqb_spec k k0) as [->|N].
    + split; [eauto|left; reflexivity].
    + split; [intros [?|?]; [contradiction|assumption]|right; assumption].
Qed.

Lemma interactions_of_snoc (t : list row) (r : row) :
  interactions_of (t ++ [r])
  = dict_set (normalize_name (row_name r)) (row_details r) (interactions_of t).
Proof. unfold interactions_of. rewrite fold_left_app. reflexivity. Qed.

Lemma interactions_get_snoc (k : string) (t : list row) (r : row) :
  dict_get k (interactions_of (t ++ [r]))
  = if String.eqb k (normalize_name (row_name r)) then Some (row_details r)
    else dict_get k (interactions_of t).
Proof. rewrite interactions_of_snoc. apply dict_get_set. Qed.

(** What the dict holds for a key are the details of a stored row with that
    normalized name. *)
Lemma interactions_get_some (k d : string) (t : list row) :
  dict_get k (interactions_of t) = Some d ->
  exists r, r ∈ t /\ normalize_name (row_name r) = k /\ row_details r = d.
Proof.
  induction t as [|r t IH] using rev_ind; [discriminate|].
  rewrite interactions_get_snoc.
  destruct (String.eqb_spec k (normalize_name (row_name r))) as [->|N].
  - intros [= <-]. exists r. split; [|split; reflexivity].
    apply elem_of_app. right. apply list_elem_of_here.
  - intros (r' & I & E)%IH. exists r'. split; [|exact E].
    apply elem_of_app. left. exact I.
Qed.

Lemma interactions_get_present (k : string) (t : list row) :
  k ∈ normalized_names t -> is_Some (dict_get k (interactions_of t)).
Proof.
  unfold normalized_names.
  induction t as [|r t IH] using rev_ind; [intros []%elem_of_nil|].
  rewrite fmap_app, elem_of_app, interactions_get_snoc.
  destruct (String.eqb_spec k (normalize_name (row_name r))) as [->|N]; [eauto|].
  intros [I|[->|[]%elem_of_nil]%elem_of_cons]; [exact (IH I)|contradiction].
Qed.

Lemma interactions_get_absent (k : string) (t : list row) :
  k ∉ normalized_names t -> dict_get k (interactions_of t) = None.
Proof.
  intros N. destruct (dict_get k (interactions_of t)) as [d|] eqn:G; [|reflexivity].
  destruct (interactions_get_some _ _ _ G) as (r & I & <- & _).
  exfalso. apply N. unfold normalized_names.
  apply (list_elem_of_fmap_2 (λ r, normalize_name (row_name r))), I.
Qed.

(** The keys of the dict are the candidate set. *)
Lemma interactions_keys (k : string) (t : list row) :
  k ∈ dict_keys (interactions_of t) <-> k ∈ normalized_names t.
Proof.
  rewrite dict_keys_get. split; [|apply interactions_get_present].
  intros [d G]. destruct (interactions_get_some _ _ _ G) as (r & I & <- & _).
  unfold normalized_names.
  apply (list_elem_of_fmap_2 (λ r, normalize_name (row_name r))), I.
Qed.

(** With unique normalized names the dict holds every row's details. *)
Lemma interactions_get_unique (t : list row) (r : row) :
  unique_normalized t -> r ∈ t ->
  dict_get (normalize_name (row_name r)) (interactions_of t)
  = Some (row_details r).
Proof.
  unfold unique_normalized, normalized_names.
  induction t as [|r0 t IH] using rev_ind; [intros _ []%elem_of_nil|].
  rewrite fmap_app, NoDup_app, elem_of_app, interactions_get_snoc.
  intros (U & Fresh & _) [I|[->|[]%elem_of_nil]%elem_of_cons].
  - destruct (String.eqb_spec (normalize_name (row_name r))
                (normalize_name (row_name r0))) as [E|_]; [|exact (IH U I)].
    exfalso. apply (Fresh (normalize_name (row_name r))).
    + apply (list_elem_of_fmap_2 (λ r, normalize_name (row_name r))), I.
    + rewrite E. apply list_elem_of_here.
  - rewrite String.eqb_refl. reflexivity.
Qed.

End DictFacts.

(** ** Lookup *)

Section Lookup.
Variable ext : externals.

Lemma best_of_spec (query : string) (rest : list string) (best : string * nat) :
  let r := best_of ext query best rest in
  (r = best \/ (r.1 ∈ rest /\ r.2 = scorer ext query r.1))
  /\ best.2 <= r.2
  /\ (forall c, c ∈ rest -> scorer ext query c <= r.2).
Proof.
  revert best. induction rest as [|c rest IH]; intros best; cbn [best_of].
  - repeat split; [left; reflexivity|lia|intros c []%elem_of_nil].
  - cbv zeta. destruct (Nat.ltb_spec best.2 (scorer ext query c)) as [L|L].
    + destruct (IH (c, scorer ext query c)) as ([->|[I S]] & Le & All);
        cbn [fst snd] in *.
      * repeat split; [right; split; [apply list_elem_of_here|reflexivity]|lia|].
        intros c' [->|I]%elem_of_cons; [lia|exact (All _ I)].
      * repeat split;
          [right; split; [apply list_elem_of_further, I|exact S]|lia|].
        intros c' [->|I']%elem_of_cons; [lia|exact (All _ I')].
    + destruct (IH best) as (Cases & Le & All).
      repeat split; [|exact Le|].
      * destruct Cases as [->|[I S]]; [left; reflexivity|right].
        split; [apply list_elem_of_further, I|exact S].
      * intros c' [->|I']%elem_of_cons; [lia|exact (All _ I')].
Qed.

(** [extractOne] returns a choice, with its score, that no choice outscores. *)
Lemma extractOne_spec (query : string) (choices : list string)
    (best : string) (score : nat) :
  extractOne ext query choices = Some (best, score) ->
  best ∈ choices
  /\ score = scorer ext query best
  /\ (forall c, c ∈ choices -> scorer ext query c <= score).
Proof.
  destruct choices as [|c rest]; [discriminate|]. cbn [extractOne].
  intros [= E].
  destruct (best_of_spec query rest (c, scorer ext query c))
    as (Cases & Le & All).
  rewrite E in Cases, Le, All. cbn [fst snd] in *.
  repeat split.
  - destruct Cases as [[= -> _]|[I _]];
      [apply list_elem_of_here|apply list_elem_of_further, I].
  - destruct Cases as [[= -> ->]|[_ S]]; [reflexivity|exact S].
  - intros c' [->|I]%elem_of_cons; [exact Le|exact (All _ I)].
Qed.

Lemma extractOne_some (query : string) (choices : list string) :
  choices <> [] -> is_Some (extractOne ext query choices).
Proof. destruct choices; [contradiction|]. cbn [extractOne]. eauto. Qed.

(** [load_interaction] on a [str], once the store has answered. *)
Lemma load_interaction_answers (query : string) (w : world) :
  store_answers w ->
  load_interaction ext (PyStr query) w =
  let interactions := interactions_of (table w) in
  let exact_match := dict_get (normalize_name query) interactions in
  if truthy exact_match then (Ok exact_match, tick w)
  else fuzzy_match ext interactions (normalize_name query) (tick w).
Proof.
  intros F. unfold load_interaction, load_interactions, select_all, bind.
  rewrite (request_answers _ _ F). cbn [fst snd ret normalize_value].
  cbv zeta. destruct (truthy _); reflexivity.
Qed.

(** The fuzzy step over a non-empty table. *)
Lemma fuzzy_match_stored (t : list row) (query : string) (w : world) :
  t <> [] ->
  exists best score found,
    extractOne ext query (dict_keys (interactions_of t)) = Some (best, score)
    /\ best ∈ normalized_names t
    /\ score = scorer ext query best
    /\ (forall c, c ∈ normalized_names t -> scorer ext query c <= score)
    /\ dict_get best (interactions_of t) = Some found
    /\ fuzzy_match ext (interactions_of t) query w
       = (Ok (if (80 <=? score)%nat then Some found else None), w).
Proof.
  intros NE.
  assert (dict_keys (interactions_of t) <> []) as KNE.
  { destruct t as [|r t]; [contradiction|].
    assert (normalize_name (row_name r)
            ∈ dict_keys (interactions_of (r :: t))) as I.
    { apply interactions_keys. unfold normalized_names.
      cbn [fmap list_fmap]. apply list_elem_of_here. }
    intros E. rewrite E in I. exact (proj1 (elem_of_nil _) I). }
  destruct (extractOne_some query _ KNE) as [[best score] X].
  destruct (extractOne_spec _ _ _ _ X) as (I & S & All).
  destruct (proj1 (dict_keys_get _ _) I) as [found G].
  exists best, score, found. repeat split; try assumption.
  - apply interactions_keys, I.
  - intros c Ic. apply All, interactions_keys, Ic.
  - unfold fuzzy_match.
    destruct (dict_keys (interactions_of t)) as [|k ks] eqn:K; [contradiction|].
    rewrite X, G. destruct (80 <=? score)%nat; reflexivity.
Qed.

End Lookup.

(** C3, as the code has it. When the store answers and the normalized query
    is among the normalized stored names, the dict holds for it the details
    of a stored row of that normalized name, and when these details are not
    empty the lookup returns them: the exact match comes first and no fuzzy
    result takes its place. *)
Theorem load_interaction_exact_match
    (ext : externals) (w : world) (query : string) :
  store_answers w ->
  normalize_name query ∈ normalized_names (table w) ->
  exists r,
    r ∈ table w
    /\ normalize_name (row_name r) = normalize_name query
    /\ dict_get (normalize_name query) (interactions_of (table w))
       = Some (row_details r)
    /\ (row_details r <> "" ->
        load_interaction ext (PyStr query) w
        = (Ok (Some (row_details r)), tick w)).
Proof.
  intros F P.
  destruct (interactions_get_present _ _ P) as [d G].
  destruct (interactions_get_some _ _ _ G) as (r & I & E & <-).
  exists r. repeat split; try assumption.
  intros NE. rewrite (load_interaction_answers _ _ _ F). cbv zeta.
  rewrite G. cbn [truthy].
  destruct (row_details r); [contradiction|reflexivity].
Qed.

Lemma load_interaction_exact_match_witness :
  exists r,
    r ∈ [Row "John" "met for coffee"; Row "Johnny" "lunch"]
    /\ row_details r = "met for coffee"
    /\ load_interaction (offline (scores 100)) (PyStr "  JOHN ")
         (World [Row "John" "met for coffee"; Row "Johnny" "lunch"] [] [])
       = (Ok (Some (row_details r)),
          World [Row "John" "met for coffee"; Row "Johnny" "lunch"] [] []).
Proof.
  destruct (load_interaction_exact_match (offline (scores 100))
              (World [Row "John" "met for coffee"; Row "Johnny" "lunch"] [] [])
              "  JOHN ") as (r & I & _ & G & L).
  - reflexivity.
  - apply list_elem_of_here.
  - exists r.
    assert (Some "met for coffee" = Some (row_details r)) as [= D] by exact G.
    split; [exact I|]. split; [symmetry; exact D|].
    apply L. rewrite <- D. discriminate.
Defined.

(** C3 as stated fails on a stored row with empty details: ["john"] is a
    stored normalized name whose details are [""], the check on the details
    sends the lookup to the fuzzy step, and there ["john!"], stored first and
    scored 100 like ["john"], wins. *)
Lemma load_interaction_exact_match_skipped :
  normalize_name "John" ∈ normalized_names [Row "john!" "gym"; Row "John" ""]
  /\ dict_get (normalize_name "John")
       (interactions_of [Row "john!" "gym"; Row "John" ""]) = Some ""
  /\ load_interaction (offline (scores 100)) (PyStr "John")
       (World [Row "john!" "gym"; Row "John" ""] [] [])
     = (Ok (Some "gym"), World [Row "john!" "gym"; Row "John" ""] [] []).
Proof.
  repeat split; [|vm_compute; reflexivity..].
  apply list_elem_of_further, list_elem_of_here.
Qed.

(** C4. When the store answers and the normalized query is not a stored
    normalized name: on an empty table the lookup returns [None]; otherwise
    [extractOne] picks a stored normalized name that none outscores, and the
    lookup returns the details held for it when its score is 80 or more and
    [None] when it is below 80. *)
Theorem load_interaction_fuzzy_threshold
    (ext : externals) (w : world) (query : string) :
  store_answers w ->
  normalize_name query ∉ normalized_names (table w) ->
  (table w = [] -> load_interaction ext (PyStr query) w = (Ok None, tick w))
  /\ (table w <> [] ->
      exists best score found,
        extractOne ext (normalize_name query)
          (dict_keys (interactions_of (table w))) = Some (best, score)
        /\ best ∈ normalized_names (table w)
        /\ score = scorer ext (normalize_name query) best
        /\ (forall c, c ∈ normalized_names (table w) ->
                      scorer ext (normalize_name query) c <= score)
        /\ dict_get best (interactions_of (table w)) = Some found
        /\ load_interaction ext (PyStr query) w
           = (Ok (if (80 <=? score)%nat then Some found else None), tick w)).
Proof.
  intros F N. rewrite (load_interaction_answers _ _ _ F). cbv zeta.
  rewrite (interactions_get_absent _ _ N). cbn [truthy]. split.
  - intros ->. reflexivity.
  - intros NE.
    destruct (fuzzy_match_stored ext _ (normalize_name query) (tick w) NE)
      as (best & score & found & X & I & S & All & G & R).
    exists best, score, found. repeat split; assumption.
Qed.

Lemma load_interaction_fuzzy_threshold_witness :
  load_interaction (offline (scores 85)) (PyStr "Jon")
    (World [Row "John" "met for coffee"] [] [])
  = (Ok (Some "met for coffee"), World [Row "John" "met for coffee"] [] []).
Proof.
  destruct (load_interaction_fuzzy_threshold (offline (scores 85))
              (World [Row "John" "met for coffee"] [] []) "Jon")
    as [_ Fuzzy].
  - reflexivity.
  - intros [E|[]%elem_of_nil]%elem_of_cons. discriminate E.
  - destruct Fuzzy as (best & score & found & X & _ & _ & _ & G & R);
      [discriminate|].
    injection X as <- <-. injection G as <-. exact R.
Defined.

(** C10, as the code has it. When the store answers and the details the dict
    holds for the normalized name are empty, the lookup is the fuzzy step
    over all stored names; this is so for every row with empty details in a
    table with unique normalized names. The fuzzy step can then return the
    details of another row, or [None]. *)
Theorem load_interaction_empty_details_falls_through :
  (forall (ext : externals) (w : world) (name : string),
      store_answers w ->
      dict_get (normalize_name name) (interactions_of (table w)) = Some "" ->
      load_interaction ext (PyStr name) w
      = fuzzy_match ext (interactions_of (table w)) (normalize_name name)
          (tick w))
  /\ (forall (ext : externals) (w : world) (name : string) (r : row),
        store_answers w ->
        unique_normalized (table w) ->
        r ∈ table w ->
        row_details r = "" ->
        normalize_name (row_name r) = normalize_name name ->
        load_interaction ext (PyStr name) w
        = fuzzy_match ext (interactions_of (table w)) (normalize_name name)
            (tick w))
  /\ load_interaction (offline (scores 100)) (PyStr "john")
       (World [Row "john!" "gym"; Row "john" ""] [] [])
     = (Ok (Some "gym"), World [Row "john!" "gym"; Row "john" ""] [] [])
  /\ load_interaction (offline (scores 0)) (PyStr "??")
       (World [Row "??" ""] [] [])
     = (Ok None, World [Row "??" ""] [] []).
Proof.
  assert (forall (ext : externals) (w : world) (name : string),
      store_answers w ->
      dict_get (normalize_name name) (interactions_of (table w)) = Some "" ->
      load_interaction ext (PyStr name) w
      = fuzzy_match ext (interactions_of (table w)) (normalize_name name)
          (tick w)) as Falls.
  { intros ext w name F G.
    rewrite (load_interaction_answers _ _ _ F). cbv zeta.
    rewrite G. reflexivity. }
  split; [exact Falls|]. split; [|split; vm_compute; reflexivity].
  intros ext w name r F U I D E. apply Falls; [exact F|].
  rewrite <- E, <- D. apply interactions_get_unique; assumption.
Qed.

Lemma load_interaction_empty_details_falls_through_witness :
  load_interaction (offline (scores 90)) (PyStr "Ann")
    (World [Row "Bob" "call"; Row "ann" ""] [] [])
  = fuzzy_match (offline (scores 90))
      (interactions_of [Row "Bob" "call"; Row "ann" ""]) "ann"
      (World [Row "Bob" "call"; Row "ann" ""] [] []).
Proof.
  apply (proj1 (proj2 load_interaction_empty_details_falls_through)
           (offline (scores 90))
           (World [Row "Bob" "call"; Row "ann" ""] [] [])
           "Ann" (Row "ann" "")).
  - reflexivity.
  - unfold unique_normalized. vm_compute.
    apply NoDup_cons. split; [|apply NoDup_singleton].
    intros [E|[]%elem_of_nil]%elem_of_cons. discriminate E.
  - apply list_elem_of_further, list_elem_of_here.
  - reflexivity.
  - reflexivity.
Defined.

(** C10 as stated fails when a later row shares the normalized name: the
    dict then holds the later row's details, and the lookup returns them at
    the exact-match step although a row with empty details and that
    normalized name is stored; the fuzzy step would have returned [None]. *)
Lemma load_interaction_empty_details_shadowed :
  Row "John" "" ∈ [Row "John" ""; Row "john" "met for coffee"]
  /\ normalize_name (row_name (Row "John" "")) = normalize_name "john"
  /\ load_interaction (offline (scores 0)) (PyStr "john")
       (World [Row "John" ""; Row "john" "met for coffee"] [] [])
     = (Ok (Some "met for coffee"),
        World [Row "John" ""; Row "john" "met for coffee"] [] [])
  /\ fuzzy_match (offline (scores 0))
       (interactions_of [Row "John" ""; Row "john" "met for coffee"])
       (normalize_name "john")
       (World [Row "John" ""; Row "john" "met for coffee"] [] [])
     = (Ok None, World [Row "John" ""; Row "john" "met for coffee"] [] []).
Proof.
  repeat split; [apply list_elem_of_here|vm_compute; reflexivity..].
Qed.

(** ** Intent extraction and retrieval *)

Section Retrieval.
Variable ext : externals.

(** [parse_query_with_groq], by what the model and [json.loads] do. *)
Lemma parse_query_with_groq_cases (query : string) (w : world) :
  parse_query_with_groq ext query w =
  match groq_create ext query with
  | Raise e => on_exception None e w
  | Ok [] => on_exception None IndexError w
  | Ok (None :: _) => on_exception None AttributeError w
  | Ok (Some content :: _) =>
      let raw_content := strip content in
      if nonempty raw_content then
        match json_loads ext raw_content with
        | Raise e => on_exception (Some raw_content) e w
        | Ok parsed_result =>
            if has_name parsed_result then (Ok parsed_result, w)
            else
              (Ok empty_result,
               shows [UiError (MsgParsedInvalid parsed_result)] w)
        end
      else (Ok empty_result, shows [UiError MsgGroqEmpty] w)
  end.
Proof.
  unfold parse_query_with_groq, try_except, bind, call.
  destruct (groq_create ext query) as [[|[content|] rest]|e];
    try reflexivity.
  cbn [first_content ret]. cbv zeta.
  destruct (nonempty (strip content)); [|reflexivity]. cbn [negb].
  destruct (json_loads ext (strip content)) as [parsed|e].
  - destruct (has_name parsed); reflexivity.
  - destruct e; reflexivity.
Qed.

(** With [raw_content] bound, the handlers report and give the empty
    result. *)
Lemma on_exception_bound (raw_content : string) (e : exn) (w : world) :
  exists m,
    on_exception (Some raw_content) e w
    = (Ok empty_result, shows [UiError m] w).
Proof. destruct e; eexists; reflexivity. Qed.

Lemma on_exception_other (raw_content : option string) (e : exn) (w : world) :
  (forall msg, e <> JSONDecodeError msg) ->
  on_exception raw_content e w
  = (Ok empty_result, shows [UiError (MsgGroqError e)] w).
Proof. intros N. destruct e; try reflexivity. destruct (N msg eq_refl). Qed.

(** What the extractor returns is a dict. *)
Lemma parse_query_with_groq_dict (query : string) (w w' : world) (v : value) :
  parse_query_with_groq ext query w = (Ok v, w') ->
  exists fields, v = PyDict fields.
Proof.
  rewrite parse_query_with_groq_cases.
  assert (forall raw e,
             on_exception raw e w = (Ok v, w') -> exists fields, v = PyDict fields)
    as Handler.
  { intros [raw|] e; destruct e; cbn; intros [= <- _]; eexists; reflexivity. }
  destruct (groq_create ext query) as [[|[content|] rest]|e];
    try apply Handler.
  cbv zeta. destruct (nonempty (strip content)).
  - destruct (json_loads ext (strip content)) as [parsed|e]; [|apply Handler].
    destruct (has_name parsed) eqn:H.
    + intros [= <- _]. destruct parsed; try discriminate H. eexists; reflexivity.
    + intros [= <- _]. eexists; reflexivity.
  - intros [= <- _]. eexists; reflexivity.
Qed.

Lemma shows_shows (a b : list ui_event) (w : world) :
  shows b (shows a w) = shows (a ++ b) w.
Proof. unfold shows. cbn [table faults ui]. rewrite app_assoc. reflexivity. Qed.

(** The retrieve handler, by what the extractor and the lookup do. *)
Lemma retrieve_tab_cases (query : string) (w : world) :
  query <> "" ->
  retrieve_tab ext query w =
  match parse_query_with_groq ext query w with
  | (Raise e, w1) => (Raise e, w1)
  | (Ok result, w1) =>
      match intent_of result with
      | IName n =>
          match load_interaction ext n w1 with
          | (Ok (Some d), w2) =>
              (Ok tt, shows (if nonempty d then found n d else notFound n) w2)
          | (Ok None, w2) => (Ok tt, shows (notFound n) w2)
          | (Raise e, w2) => (Raise e, w2)
          end
      | IMessage m => (Ok tt, shows (info m) w1)
      | IEmpty => (Ok tt, shows unresolved w1)
      end
  end.
Proof.
  intros NE. unfold retrieve_tab.
  destruct query as [|c query]; [contradiction|]. cbn [nonempty negb].
  unfold bind at 1.
  destruct (parse_query_with_groq ext (String c query) w) as [[result|e] w1] eqn:P;
    [|reflexivity].
  destruct (parse_query_with_groq_dict _ _ _ _ P) as [fields ->].
  cbn [py_get intent_of]. unfold bind at 1 2. cbn [ret].
  destruct (default PyNone (dict_get "name" fields)) as [| b | l | s | l | d] eqn:N;
    cbn [is_not_None].
  1: destruct (default PyNone (dict_get "message" fields)); reflexivity.
  all: unfold bind at 1;
    destruct (load_interaction ext _ w1) as [[[d'|]|e] w2]; try reflexivity;
    destruct (nonempty d'); try reflexivity;
    unfold bind, st_write, st_markdown, emit, found; cbn;
    unfold shows; cbn; rewrite <- app_assoc; reflexivity.
Qed.

End Retrieval.

(** C7, as the code has it. On a non-empty query for which the extractor
    returns a result: with a name, the handler looks the name up and, the
    lookup having returned, shows the details when they are not empty and
    the not-found error when the lookup returned [None] or empty details;
    with no name but a message it shows the message; with neither it shows
    that no name was identified. A name that is not [None] makes the result
    a name whether or not a message comes with it. *)
Theorem retrieve_tab_dispatch
    (ext : externals) (query : string) (w w1 : world) (result : value) :
  query <> "" ->
  parse_query_with_groq ext query w = (Ok result, w1) ->
  (forall n details w2,
      intent_of result = IName n ->
      load_interaction ext n w1 = (Ok details, w2) ->
      retrieve_tab ext query w
      = (Ok tt,
         shows match details with
               | Some d => if nonempty d then found n d else notFound n
               | None => notFound n
               end w2))
  /\ (forall m,
        intent_of result = IMessage m ->
        retrieve_tab ext query w = (Ok tt, shows (info m) w1))
  /\ (intent_of result = IEmpty ->
      retrieve_tab ext query w = (Ok tt, shows unresolved w1))
  /\ (forall fields n m,
        dict_get "name" fields = Some n -> n <> PyNone ->
        dict_get "message" fields = Some m ->
        intent_of (PyDict fields) = IName n).
Proof.
  intros NE P. rewrite (retrieve_tab_cases ext query w NE), P.
  split; [|split; [|split]].
  - intros n details w2 -> ->. destruct details; reflexivity.
  - intros m ->. reflexivity.
  - intros ->. reflexivity.
  - intros fields n m N NN _. cbn [intent_of]. rewrite N.
    cbn [default from_option id].
    destruct n; [contradiction|reflexivity..].
Qed.

Lemma retrieve_tab_dispatch_witness :
  retrieve_tab (names_person "Pritha" (scores 0))
    "what did I discuss with Pritha"
    (World [Row "Pritha" "discussed project X"] [] [])
  = (Ok tt,
     World [Row "Pritha" "discussed project X"] []
           (found (PyStr "Pritha") "discussed project X")).
Proof.
  apply (proj1 (retrieve_tab_dispatch (names_person "Pritha" (scores 0))
                  "what did I discuss with Pritha"
                  (World [Row "Pritha" "discussed project X"] [] [])
                  (World [Row "Pritha" "discussed project X"] [] [])
                  (PyDict [("name", PyStr "Pritha"); ("message", PyNone)])
                  ltac:(discriminate) eq_refl)
           (PyStr "Pritha") (Some "discussed project X")
           (World [Row "Pritha" "discussed project X"] [] []));
    reflexivity.
Defined.

(** C7 as stated fails on a stored row with empty details: the name the model
    gives resolves to the stored ["john"], yet the handler reports that no
    interaction was found. *)
Lemma retrieve_tab_match_reported_missing :
  intent_of (PyDict [("name", PyStr "john"); ("message", PyNone)])
  = IName (PyStr "john")
  /\ resolve (names_person "john" (scores 100)) "john"
       (normalized_names [Row "john" ""]) = Some "john"
  /\ retrieve_tab (names_person "john" (scores 100))
       "what did I discuss with john" (World [Row "john" ""] [] [])
     = (Ok tt, World [Row "john" ""] [] (notFound (PyStr "john"))).
Proof. repeat split; vm_compute; reflexivity. Qed.

(** ** Failures of the language-model call *)

(** On every failure of the model call but one, the extractor reports once
    and returns the empty result, and retrieval ends unresolved. The one is
    the call itself raising [JSONDecodeError]. *)
Lemma parse_query_with_groq_degrades
    (ext : externals) (query : string) (w : world) :
  model_failure ext query ->
  (forall msg, groq_create ext query <> Raise (JSONDecodeError msg)) ->
  exists m,
    parse_query_with_groq ext query w
    = (Ok empty_result, shows [UiError m] w)
    /\ (query <> "" ->
        retrieve_tab ext query w
        = (Ok tt, shows ([UiError m] ++ unresolved) w)).
Proof.
  intros Fail NotJson.
  assert (exists m, parse_query_with_groq ext query w
                    = (Ok empty_result, shows [UiError m] w)) as [m P].
  { rewrite parse_query_with_groq_cases.
    destruct Fail as [e C|content rest C S|content rest e C S J
                      |content rest parsed C S J H]; rewrite C.
    - eexists. apply on_exception_other. intros msg ->. exact (NotJson _ C).
    - cbv zeta. rewrite S. eexists. reflexivity.
    - cbv zeta. rewrite J. destruct (strip content); [contradiction|].
      apply on_exception_bound.
    - cbv zeta. rewrite J, H. destruct (strip content); [contradiction|].
      eexists. reflexivity. }
  exists m. split; [exact P|]. intros NE.
  rewrite (retrieve_tab_cases _ _ _ NE), P. cbn [intent_of].
  rewrite <- shows_shows. reflexivity.
Qed.

(** C8, where the code departs from it. When the model call itself raises
    [JSONDecodeError], the handler for that class formats [raw_content]
    before any assignment to it: [UnboundLocalError] leaves the extractor,
    nothing is reported, and it leaves the retrieve handler too. *)
Theorem parse_query_with_groq_unbound_raw_content
    (ext : externals) (query : string) (w : world) (msg : string) :
  groq_create ext query = Raise (JSONDecodeError msg) ->
  model_failure ext query
  /\ parse_query_with_groq ext query w = (Raise UnboundLocalError, w)
  /\ (query <> "" -> retrieve_tab ext query w = (Raise UnboundLocalError, w)).
Proof.
  intros C.
  assert (parse_query_with_groq ext query w = (Raise UnboundLocalError, w)) as P.
  { rewrite parse_query_with_groq_cases, C. reflexivity. }
  repeat split; [exact (call_raises _ _ _ C)|exact P|].
  intros NE. rewrite (retrieve_tab_cases _ _ _ NE), P. reflexivity.
Qed.

Lemma parse_query_with_groq_unbound_raw_content_witness :
  parse_query_with_groq
    (canned (Raise (JSONDecodeError "Expecting value"))
            (Raise (OtherException "offline")) (scores 0))
    "what did I discuss with John" (World [Row "John" "lunch"] [] [])
  = (Raise UnboundLocalError, World [Row "John" "lunch"] [] []).
Proof.
  apply (parse_query_with_groq_unbound_raw_content
           (canned (Raise (JSONDecodeError "Expecting value"))
                   (Raise (OtherException "offline")) (scores 0))
           "what did I discuss with John" (World [Row "John" "lunch"] [] [])
           "Expecting value").
  reflexivity.
Defined.

(** ** More on normalisation *)

Section NormalizeMore.

Lemma append_assoc (a b c : string) : (a +:+ b) +:+ c = a +:+ b +:+ c.
Proof.
  induction a as [|x a IH]; [reflexivity|].
  rewrite !append_cons, IH. reflexivity.
Qed.

Lemma all_space_app (a b : string) :
  all_space (a +:+ b) = all_space a && all_space b.
Proof.
  induction a as [|x a IH]; [reflexivity|].
  rewrite append_cons. cbn [all_space]. rewrite IH, andb_assoc. reflexivity.
Qed.

Lemma strip_empty_iff (s : string) : strip s = "" <-> all_space s = true.
Proof.
  split.
  - intros E. destruct (strip_split s) as (pre & post & S & A1 & A2).
    rewrite S, E, append_nil_l, all_space_app, A1, A2. reflexivity.
  - intros A. unfold strip. rewrite (lstrip_all_space _ A). reflexivity.
Qed.

Lemma strip_surrounded (pre s post : string) :
  all_space pre = true -> all_space post = true ->
  strip (pre +:+ s +:+ post) = strip s.
Proof.
  intros A1 A2. destruct (strip_split s) as (p & q & S & Ap & Aq).
  rewrite S at 1.
  rewrite !append_assoc, <- (append_assoc pre p).
  apply strip_sandwich; [| |apply strip_trimmed].
  - rewrite all_space_app, A1, Ap. reflexivity.
  - rewrite all_space_app, Aq, A2. reflexivity.
Qed.

Lemma first_char_lower (s : string) :
  is_space_opt (first_char (lower s)) = is_space_opt (first_char s).
Proof. destruct s; [reflexivity|]. apply isspace_lower_char. Qed.

Lemma last_char_lower (s : string) :
  is_space_opt (last_char (lower s)) = is_space_opt (last_char s).
Proof.
  induction s as [|c s IH]; [reflexivity|].
  destruct s as [|c' s']; [apply isspace_lower_char|exact IH].
Qed.

End NormalizeMore.

(** X1. A name normalizes to the empty string exactly when it consists of
    whitespace only (the empty name included). *)
Theorem normalize_name_empty_iff (s : string) :
  normalize_name s = "" <-> all_space s = true.
Proof.
  unfold normalize_name. rewrite <- strip_empty_iff.
  destruct (strip s); [tauto|]. split; discriminate.
Qed.

(** X2. Whitespace around a name and the case of its letters do not change
    its normalized form. *)
Theorem normalize_name_insensitive (pre s post : string) :
  all_space pre = true -> all_space post = true ->
  normalize_name (pre +:+ s +:+ post) = normalize_name s
  /\ normalize_name (pre +:+ lower s +:+ post) = normalize_name s.
Proof.
  intros A1 A2. unfold normalize_name.
  rewrite !(strip_surrounded _ _ _ A1 A2), <- lower_strip, lower_idem.
  split; reflexivity.
Qed.

Lemma normalize_name_insensitive_witness :
  normalize_name ("  " +:+ "John Smith" +:+ " ") = normalize_name "John Smith".
Proof.
  apply (normalize_name_insensitive "  " "John Smith" " "); reflexivity.
Defined.

(** X3. A normalized name has no whitespace at either end and is left alone
    by [strip] and by [lower]. *)
Theorem normalize_name_canonical (s : string) :
  trimmed (normalize_name s) = true
  /\ strip (normalize_name s) = normalize_name s
  /\ lower (normalize_name s) = normalize_name s.
Proof.
  assert (trimmed (normalize_name s) = true) as T.
  { unfold normalize_name, trimmed.
    rewrite first_char_lower, last_char_lower. apply strip_trimmed. }
  repeat split; [exact T|apply strip_fixed, T|apply lower_idem].
Qed.

(** ** More on logging *)

Section LoggingMore.

Lemma shows_nil (w : world) : shows [] w = w.
Proof. destruct w. unfold shows. cbn. rewrite app_nil_r. reflexivity. Qed.

(** What a call of [save_interaction] comes to. *)
Lemma save_interaction_result (name details : string) (w : world) :
  exists (b : bool) (w' : world),
    save_interaction name details w = (Ok b, w')
    /\ (b = true ->
        table w' = table w ++ [Row name details] /\ ui w' = ui w
        /\ normalize_name name ∉ normalized_names (table w))
    /\ (b = false ->
        table w' = table w /\ exists m, ui w' = ui w ++ [UiError m]).
Proof.
  rewrite save_interaction_cases.
  destruct (next_fault w) as [e|].
  { eexists _, _. split; [reflexivity|]. split; [discriminate|]. eauto. }
  destruct (bool_decide _) eqn:D.
  { eexists _, _. split; [reflexivity|]. split; [discriminate|]. eauto. }
  apply bool_decide_eq_false in D.
  destruct (next_fault (tick w)) as [e|].
  { eexists _, _. split; [reflexivity|]. split; [discriminate|]. eauto. }
  eexists _, _. split; [reflexivity|]. split; [auto|discriminate].
Qed.

(** The log handler, by what [save_interaction] does. *)
Lemma log_tab_cases (person_name interaction_details : string) (w : world) :
  log_tab person_name interaction_details w =
  if negb (nonempty person_name) || negb (nonempty interaction_details) then
    (Ok tt, shows [UiError MsgProvideBoth] w)
  else
    match save_interaction person_name interaction_details w with
    | (Ok true, w') => (Ok tt, shows [UiSuccess (MsgSaved person_name)] w')
    | (Ok false, w') => (Ok tt, w')
    | (Raise e, w') => (Raise e, w')
    end.
Proof.
  unfold log_tab.
  destruct (negb (nonempty person_name) || negb (nonempty interaction_details));
    [reflexivity|].
  unfold bind.
  destruct (save_interaction person_name interaction_details w)
    as [[[|]|e] w']; reflexivity.
Qed.

Lemma nonempty_true (s : string) : nonempty s = true <-> s <> "".
Proof. destruct s; cbn; split; congruence. Qed.

Lemma raw_names_unique (t : list row) :
  unique_normalized t -> NoDup (row_name <$> t).
Proof.
  unfold unique_normalized.
  induction t as [|r t IH]; cbn [fmap list_fmap normalized_names];
    [intros _; apply NoDup_nil_2|].
  intros [N U]%NoDup_cons. apply NoDup_cons. split; [|exact (IH U)].
  apply raw_name_fresh, N.
Qed.

Lemma run_op_prefix (op : logging_op) (w : world) :
  table w `prefix_of` table (run_op op w).
Proof.
  assert (forall name details,
             table w `prefix_of` table (save_interaction name details w).2) as S.
  { intros name details.
    destruct (save_interaction_table name details w) as [->|[_ ->]];
      [reflexivity|apply prefix_app_r; reflexivity]. }
  destruct op as [name details|name details]; cbn [run_op]; [apply S|].
  destruct (log_tab_table name details w) as [->| ->]; [reflexivity|apply S].
Qed.

Lemma log_all_snoc (submissions : list (string * string))
    (s : string * string) (w : world) :
  log_all (submissions ++ [s]) w
  = (log_tab s.1 s.2 (log_all submissions w)).2.
Proof. unfold log_all. rewrite fold_left_app. reflexivity. Qed.

(** What a submission to the log handler comes to. *)
Lemma log_tab_result (person_name interaction_details : string) (w : world) :
  exists (ev : ui_event) (w' : world),
    log_tab person_name interaction_details w = (Ok tt, w')
    /\ ui w' = ui w ++ [ev]
    /\ ((ev = UiSuccess (MsgSaved person_name)
         /\ table w' = table w ++ [Row person_name interaction_details]
         /\ person_name <> "" /\ interaction_details <> "")
        \/ ((exists m, ev = UiError m) /\ table w' = table w)).
Proof.
  rewrite log_tab_cases.
  destruct (negb (nonempty person_name) || negb (nonempty interaction_details))
    eqn:V.
  { eexists _, _. split; [reflexivity|]. split; [reflexivity|]. right. eauto. }
  apply orb_false_iff in V as [V1 V2].
  apply negb_false_iff, nonempty_true in V1, V2.
  destruct (save_interaction_result person_name interaction_details w)
    as ([|] & w' & -> & T & F).
  - destruct (T eq_refl) as (Tb & Ui & _).
    eexists _, _. split; [reflexivity|]. cbn [shows ui table].
    rewrite Ui. split; [reflexivity|]. left. auto.
  - destruct (F eq_refl) as (Tb & m & Ui).
    eexists _, _. split; [reflexivity|]. split; [exact Ui|]. right. eauto.
Qed.

End LoggingMore.

(** X4. When the store answers both requests and the normalized name is not
    yet stored, [save_interaction] returns [True]: the row is appended with
    the name as typed (not normalized), two requests are used and nothing is
    shown. *)
Theorem save_interaction_inserts (name details : string) (w : world) :
  store_answers w ->
  store_answers (tick w) ->
  normalize_name name ∉ normalized_names (table w) ->
  save_interaction name details w
  = (Ok true,
     World (table w ++ [Row name details]) (tail (tail (faults w))) (ui w)).
Proof.
  intros F1 F2 N. rewrite save_interaction_cases, F1, F2.
  rewrite (bool_decide_eq_false_2 _ N). reflexivity.
Qed.

Lemma save_interaction_inserts_witness :
  save_interaction " Ann B " "lunch" (World [Row "Bob" "call"] [None; None] [])
  = (Ok true, World [Row "Bob" "call"; Row " Ann B " "lunch"] [] []).
Proof.
  apply (save_interaction_inserts " Ann B " "lunch"
           (World [Row "Bob" "call"] [None; None] [])); try reflexivity.
  intros [E|[]%elem_of_nil]%elem_of_cons. discriminate E.
Defined.

(** X5. [save_interaction] never raises. It returns [True] only when it has
    appended exactly the new row, whose normalized name was not stored, and
    then shows nothing; when it returns [False] the table is as before and
    exactly one error has been shown. *)
Theorem save_interaction_outcome (name details : string) (w : world) :
  exists (b : bool) (w' : world),
    save_interaction name details w = (Ok b, w')
    /\ (b = true ->
        table w' = table w ++ [Row name details] /\ ui w' = ui w
        /\ normalize_name name ∉ normalized_names (table w))
    /\ (b = false ->
        table w' = table w /\ exists m, ui w' = ui w ++ [UiError m]).
Proof. apply save_interaction_result. Qed.

(** X6. A store failure, on the read or on the insert, makes
    [save_interaction] return [False] with the table as before and the
    store's exception shown in the saving error. *)
Theorem save_interaction_store_failure
    (name details : string) (w : world) (e : exn) :
  next_fault w = Some e
  \/ (store_answers w
      /\ (normalize_name name ∉ normalized_names (table w))
      /\ next_fault (tick w) = Some e) ->
  exists w',
    save_interaction name details w = (Ok false, w')
    /\ table w' = table w
    /\ ui w' = ui w ++ [UiError (MsgErrorSaving e)].
Proof.
  rewrite save_interaction_cases. intros [F|(F1 & N & F2)].
  - rewrite F. eexists. repeat split.
  - rewrite F1, (bool_decide_eq_false_2 _ N), F2. eexists. repeat split.
Qed.

Lemma save_interaction_store_failure_witness :
  exists w',
    save_interaction "Ann" "lunch"
      (World [Row "Bob" "call"] [None; Some (APIError "503")] [])
    = (Ok false, w')
    /\ table w' = [Row "Bob" "call"]
    /\ ui w' = [UiError (MsgErrorSaving (APIError "503"))].
Proof.
  apply (save_interaction_store_failure "Ann" "lunch"
           (World [Row "Bob" "call"] [None; Some (APIError "503")] [])
           (APIError "503")).
  right. repeat split.
  intros [E|[]%elem_of_nil]%elem_of_cons. discriminate E.
Defined.

(** X7. In every state reached by logging operations from a table with
    unique normalized names, the raw names are unique too: the table's
    primary key holds. *)
Theorem logging_keeps_primary_key (w0 w : world) :
  unique_normalized (table w0) ->
  reachable w0 w ->
  NoDup (row_name <$> table w).
Proof.
  intros U R. apply raw_names_unique.
  induction R as [|w op R IH]; [exact U|]. apply run_op_unique, IH.
Qed.

Lemma logging_keeps_primary_key_witness :
  NoDup (row_name <$>
           table (run_op (OpSave "ann" "again")
                    (run_op (OpLogTab "Bob" "call")
                       (World [Row "Ann" "lunch"] [] [])))).
Proof.
  apply (logging_keeps_primary_key (World [Row "Ann" "lunch"] [] [])).
  - unfold unique_normalized. cbn. apply NoDup_singleton.
  - apply reach_step, reach_step, reach_start.
Defined.

(** X8. Logging only appends: the table of a reached state starts with the
    table it was reached from, so no stored row is changed or removed. *)
Theorem logging_appends_only (w0 w : world) :
  reachable w0 w -> table w0 `prefix_of` table w.
Proof.
  intros R. induction R as [|w op R IH]; [reflexivity|].
  etransitivity; [exact IH|apply run_op_prefix].
Qed.

Lemma logging_appends_only_witness :
  [Row "Ann" "lunch"]
  `prefix_of` table (run_op (OpLogTab "Bob" "call")
                       (World [Row "Ann" "lunch"] [] [])).
Proof.
  apply (logging_appends_only (World [Row "Ann" "lunch"] [] [])).
  apply reach_step, reach_start.
Defined.

(** X9. The log handler never raises and shows exactly one message: the
    success message, and then exactly the submitted row, with non-empty name
    and details, has been appended; or an error, and then the table is as
    before. *)
Theorem log_tab_outcome (person_name interaction_details : string) (w : world) :
  exists (ev : ui_event) (w' : world),
    log_tab person_name interaction_details w = (Ok tt, w')
    /\ ui w' = ui w ++ [ev]
    /\ ((ev = UiSuccess (MsgSaved person_name)
         /\ table w' = table w ++ [Row person_name interaction_details]
         /\ person_name <> "" /\ interaction_details <> "")
        \/ ((exists m, ev = UiError m) /\ table w' = table w)).
Proof. apply log_tab_result. Qed.

(** X10. Rows that come from log-tab submissions have non-empty names and
    details: a table whose rows all do keeps this through any run of
    submissions. *)
Theorem log_all_rows_nonempty
    (submissions : list (string * string)) (w : world) :
  Forall (fun r => row_name r <> "" /\ row_details r <> "") (table w) ->
  Forall (fun r => row_name r <> "" /\ row_details r <> "")
         (table (log_all submissions w)).
Proof.
  intros Init. induction submissions as [|s submissions IH] using rev_ind;
    [exact Init|].
  rewrite log_all_snoc.
  destruct (log_tab_result s.1 s.2 (log_all submissions w))
    as (ev & w' & E & _ & [(_ & T & N1 & N2)|(_ & T)]);
    rewrite E; cbn [snd]; rewrite T; [|exact IH].
  apply Forall_app. split; [exact IH|]. apply Forall_singleton. split; assumption.
Qed.

Lemma log_all_rows_nonempty_witness :
  Forall (fun r => row_name r <> "" /\ row_details r <> "")
         (table (log_all [("Ann", "lunch"); ("  ", ""); ("ann", "again")]
                   (World [Row "Bob" "call"] [] []))).
Proof.
  apply (log_all_rows_nonempty [("Ann", "lunch"); ("  ", ""); ("ann", "again")]
           (World [Row "Bob" "call"] [] [])).
  apply Forall_singleton. split; discriminate.
Defined.

(** ** More on lookup *)

Section LookupMore.
Variable ext : externals.

(** The fuzzy step returns, leaves the world alone, and returns only stored
    details. *)
Lemma fuzzy_match_total (t : list row) (query : string) (w : world) :
  exists r,
    fuzzy_match ext (interactions_of t) query w = (Ok r, w)
    /\ (forall d, r = Some d -> exists x, x ∈ t /\ row_details x = d).
Proof.
  destruct t as [|x t].
  - exists None. split; [reflexivity|discriminate].
  - destruct (fuzzy_match_stored ext (x :: t) query w)
      as (best & score & found & _ & _ & _ & _ & G & R); [discriminate|].
    eexists. split; [exact R|].
    destruct (80 <=? score)%nat; [|discriminate]. intros d [= <-].
    destruct (interactions_get_some _ _ _ G) as (y & I & _ & D). eauto.
Qed.

Lemma load_interaction_fault (name : value) (w : world) (e : exn) :
  next_fault w = Some e ->
  load_interaction ext name w = (Raise e, tick w).
Proof.
  intros F. unfold load_interaction, load_interactions, select_all, bind.
  rewrite (request_fault _ _ _ F). reflexivity.
Qed.

Lemma load_interaction_not_str (name : value) (w : world) :
  store_answers w ->
  (forall s, name <> PyStr s) ->
  load_interaction ext name w = (Raise AttributeError, tick w).
Proof.
  intros F N. unfold load_interaction, load_interactions, select_all, bind.
  rewrite (request_answers _ _ F). cbn [fst snd ret].
  destruct name; try reflexivity. destruct (N s eq_refl).
Qed.

Lemma load_interaction_world (name : value) (w : world) :
  (load_interaction ext name w).2 = tick w.
Proof.
  destruct (next_fault w) as [e|] eqn:F.
  { rewrite (load_interaction_fault _ _ _ F). reflexivity. }
  destruct name as [| b | l | s | l | d];
    try (rewrite load_interaction_not_str; [reflexivity|exact F|discriminate]).
  rewrite (load_interaction_answers _ _ _ F). cbv zeta.
  destruct (truthy _); [reflexivity|].
  destruct (fuzzy_match_total (table w) (normalize_name s) (tick w))
    as (r & -> & _). reflexivity.
Qed.

Lemma load_interaction_str (query : string) (w : world) :
  store_answers w ->
  exists r,
    load_interaction ext (PyStr query) w = (Ok r, tick w)
    /\ (forall d, r = Some d -> exists x, x ∈ table w /\ row_details x = d).
Proof.
  intros F. rewrite (load_interaction_answers _ _ _ F). cbv zeta.
  destruct (dict_get (normalize_name query) (interactions_of (table w)))
    as [d|] eqn:G; cbn [truthy].
  - destruct (nonempty d).
    + eexists. split; [reflexivity|]. intros d' [= <-].
      destruct (interactions_get_some _ _ _ G) as (x & I & _ & D). eauto.
    + apply fuzzy_match_total.
  - apply fuzzy_match_total.
Qed.

(** An exact match with non-empty details is returned. *)
Lemma load_interaction_exact (query : string) (w : world) (r : row) :
  store_answers w ->
  dict_get (normalize_name query) (interactions_of (table w))
  = Some (row_details r) ->
  row_details r <> "" ->
  load_interaction ext (PyStr query) w = (Ok (Some (row_details r)), tick w).
Proof.
  intros F G NE. rewrite (load_interaction_answers _ _ _ F). cbv zeta.
  rewrite G. cbn [truthy]. rewrite (proj2 (nonempty_true _) NE). reflexivity.
Qed.

End LookupMore.

Section DictMore.

Lemma dict_keys_set {V} (k : string) (v : V) (d : list (string * V)) :
  dict_keys (dict_set k v d)
  = if bool_decide (k ∈ dict_keys d) then dict_keys d else dict_keys d ++ [k].
Proof.
  unfold dict_keys. induction d as [|[k0 v0] d IH]; [reflexivity|].
  cbn [dict_set]. destruct (String.eqb_spec k k0) as [->|N].
  - cbn [fmap list_fmap fst].
    rewrite (bool_decide_eq_true_2 _ (list_elem_of_here k0 _)). reflexivity.
  - cbn [fmap list_fmap fst] in *. rewrite IH.
    destruct (decide (k ∈ fst <$> d)) as [I|I].
    + rewrite (bool_decide_eq_true_2 _ I),
        (bool_decide_eq_true_2 _ (list_elem_of_further _ k0 _ I)). reflexivity.
    + rewrite (bool_decide_eq_false_2 _ I), bool_decide_eq_false_2;
        [reflexivity|].
      intros [E|I']%elem_of_cons; [exact (N E)|exact (I I')].
Qed.

Lemma interactions_keys_nodup (t : list row) :
  NoDup (dict_keys (interactions_of t)).
Proof.
  induction t as [|r t IH] using rev_ind; [apply NoDup_nil_2|].
  rewrite interactions_of_snoc, dict_keys_set.
  destruct (decide (normalize_name (row_name r) ∈ dict_keys (interactions_of t)))
    as [I|I].
  - rewrite (bool_decide_eq_true_2 _ I). exact IH.
  - rewrite (bool_decide_eq_false_2 _ I). apply NoDup_app.
    repeat split; [exact IH| |apply NoDup_singleton].
    intros x Ix [->|[]%elem_of_nil]%elem_of_cons. exact (I Ix).
Qed.

Lemma interactions_last_wins (t1 t2 : list row) (r : row) :
  normalize_name (row_name r) ∉ normalized_names t2 ->
  dict_get (normalize_name (row_name r)) (interactions_of (t1 ++ r :: t2))
  = Some (row_details r).
Proof.
  unfold normalized_names.
  induction t2 as [|x t2 IH] using rev_ind; intros N.
  - rewrite interactions_get_snoc, String.eqb_refl. reflexivity.
  - rewrite fmap_app, not_elem_of_app in N. destruct N as [N1 N2].
    change (t1 ++ r :: t2 ++ [x]) with (t1 ++ (r :: t2) ++ [x]).
    rewrite app_assoc, interactions_get_snoc.
    destruct (String.eqb_spec (normalize_name (row_name r))
                (normalize_name (row_name x))) as [E|_]; [|exact (IH N1)].
    exfalso. apply N2. rewrite E. apply list_elem_of_here.
Qed.

End DictMore.

(** X11. Whatever its argument and whatever the store does,
    [load_interaction] uses one request and leaves the table and what is
    shown as they were. *)
Theorem load_interaction_read_only
    (ext : externals) (name : value) (w : world) :
  (load_interaction ext name w).2 = tick w.
Proof. apply load_interaction_world. Qed.

(** X12. On a [str], once the store has answered, [load_interaction]
    returns: no [KeyError] or [TypeError] arises in the fuzzy step. What it
    returns is [None] or the details of a stored row. *)
Theorem load_interaction_returns_stored
    (ext : externals) (query : string) (w : world) :
  store_answers w ->
  exists r,
    load_interaction ext (PyStr query) w = (Ok r, tick w)
    /\ (forall d, r = Some d -> exists x, x ∈ table w /\ row_details x = d).
Proof. apply load_interaction_str. Qed.

Lemma load_interaction_returns_stored_witness :
  exists r,
    load_interaction (offline (scores 90)) (PyStr "Jon")
      (World [Row "John" "met for coffee"] [] [])
    = (Ok r, World [Row "John" "met for coffee"] [] []).
Proof.
  destruct (load_interaction_returns_stored (offline (scores 90)) "Jon"
              (World [Row "John" "met for coffee"] [] []))
    as (r & E & _); [reflexivity|].
  exists r. exact E.
Defined.

(** X13. [load_interaction] has no handler of its own: a store failure on
    the read leaves it as raised, and, the store having answered, a name
    that is not a [str] raises [AttributeError]. *)
Theorem load_interaction_raises
    (ext : externals) (name : value) (w : world) :
  (forall e, next_fault w = Some e ->
             load_interaction ext name w = (Raise e, tick w))
  /\ (store_answers w -> (forall s, name <> PyStr s) ->
      load_interaction ext name w = (Raise AttributeError, tick w)).
Proof.
  split; [intros e; apply load_interaction_fault|apply load_interaction_not_str].
Qed.

Lemma load_interaction_raises_witness :
  load_interaction (offline (scores 90)) (PyNum "5")
    (World [Row "John" "met for coffee"] [] [])
  = (Raise AttributeError, World [Row "John" "met for coffee"] [] []).
Proof.
  apply (proj2 (load_interaction_raises (offline (scores 90)) (PyNum "5")
                  (World [Row "John" "met for coffee"] [] [])));
    [reflexivity|discriminate].
Defined.

(** X14. Save, then look up: after [save_interaction] has returned [True]
    for non-empty details, with the store answering, [load_interaction]
    returns these details for every query with the normalized name of the
    saved name, whatever the scorer. *)
Theorem save_then_load
    (ext : externals) (name details query : string) (w w' : world) :
  save_interaction name details w = (Ok true, w') ->
  store_answers w' ->
  details <> "" ->
  normalize_name query = normalize_name name ->
  load_interaction ext (PyStr query) w' = (Ok (Some details), tick w').
Proof.
  intros S F NE Q.
  destruct (save_interaction_result name details w) as (b & w1 & E & T & _).
  rewrite S in E. injection E as <- <-. destruct (T eq_refl) as (Tb & _ & _).
  apply (load_interaction_exact ext query w' (Row name details) F);
    [|exact NE].
  rewrite Tb, interactions_get_snoc, Q. cbn [row_name row_details].
  rewrite String.eqb_refl. reflexivity.
Qed.

Lemma save_then_load_witness :
  load_interaction (offline (scores 0)) (PyStr " pritha ")
    (World [Row "Pritha" "discussed project X"] [] [])
  = (Ok (Some "discussed project X"),
     World [Row "Pritha" "discussed project X"] [] []).
Proof.
  apply (save_then_load (offline (scores 0)) "Pritha" "discussed project X"
           " pritha " (World [] [] [])
           (World [Row "Pritha" "discussed project X"] [] []));
    try reflexivity.
  discriminate.
Defined.

(** X15. The dict of [load_interactions]: its keys are without repetition
    and are exactly the normalized stored names, and a key holds the details
    of the last row with that normalized name. *)
Theorem interactions_of_dict (t : list row) :
  NoDup (dict_keys (interactions_of t))
  /\ (forall k, k ∈ dict_keys (interactions_of t) <-> k ∈ normalized_names t)
  /\ (forall t1 r t2,
        t = t1 ++ r :: t2 ->
        normalize_name (row_name r) ∉ normalized_names t2 ->
        dict_get (normalize_name (row_name r)) (interactions_of t)
        = Some (row_details r)).
Proof.
  repeat split.
  - apply interactions_keys_nodup.
  - apply interactions_keys.
  - apply interactions_keys.
  - intros t1 r t2 -> N. apply interactions_last_wins, N.
Qed.

Lemma interactions_of_dict_witness :
  dict_get (normalize_name "john")
    (interactions_of [Row "John" "coffee"; Row "john" "lunch"; Row "Ann" "call"])
  = Some "lunch".
Proof.
  apply (proj2 (proj2 (interactions_of_dict
                         [Row "John" "coffee"; Row "john" "lunch";
                          Row "Ann" "call"]))
           [Row "John" "coffee"] (Row "john" "lunch") [Row "Ann" "call"]);
    [reflexivity|].
  intros [E|[]%elem_of_nil]%elem_of_cons. discriminate E.
Defined.

(** X16. After any run of log-tab submissions from a table whose rows have
    non-empty details and unique normalized names, a query whose normalized
    form is a stored normalized name is answered, the store answering, with
    the details of the stored row of that normalized name. *)
Theorem logged_rows_found_exactly
    (ext : externals) (submissions : list (string * string))
    (w0 : world) (query : string) :
  Forall (fun r => row_name r <> "" /\ row_details r <> "") (table w0) ->
  unique_normalized (table w0) ->
  store_answers (log_all submissions w0) ->
  normalize_name query ∈ normalized_names (table (log_all submissions w0)) ->
  exists r,
    r ∈ table (log_all submissions w0)
    /\ normalize_name (row_name r) = normalize_name query
    /\ load_interaction ext (PyStr query) (log_all submissions w0)
       = (Ok (Some (row_details r)), tick (log_all submissions w0)).
Proof.
  intros NE U F P.
  assert (Forall (fun r => row_name r <> "" /\ row_details r <> "")
                 (table (log_all submissions w0))
          /\ unique_normalized (table (log_all submissions w0))) as [NE' U'].
  { clear F P. induction submissions as [|s submissions [IH1 IH2]] using rev_ind;
      [split; assumption|].
    rewrite log_all_snoc. split.
    - destruct (log_tab_result s.1 s.2 (log_all submissions w0))
        as (ev & w' & E & _ & [(_ & T & N1 & N2)|(_ & T)]);
        rewrite E; cbn [snd]; rewrite T; [|exact IH1].
      apply Forall_app. split; [exact IH1|].
      apply Forall_singleton. split; assumption.
    - apply (run_op_unique (OpLogTab s.1 s.2)), IH2. }
  apply list_elem_of_fmap in P as (r & E & I).
  exists r. split; [exact I|]. split; [symmetry; exact E|].
  apply load_interaction_exact; [exact F| |].
  - rewrite E. apply interactions_get_unique; assumption.
  - rewrite Forall_forall in NE'. apply (NE' r I).
Qed.

Lemma logged_rows_found_exactly_witness :
  exists r,
    load_interaction (offline (scores 100)) (PyStr " ANN ")
      (log_all [("Ann", "lunch"); ("Bob", "call")] (World [] [] []))
    = (Ok (Some (row_details r)),
       tick (log_all [("Ann", "lunch"); ("Bob", "call")] (World [] [] []))).
Proof.
  destruct (logged_rows_found_exactly (offline (scores 100))
              [("Ann", "lunch"); ("Bob", "call")] (World [] [] []) " ANN ")
    as (r & _ & _ & L).
  - apply Forall_nil_2.
  - apply NoDup_nil_2.
  - reflexivity.
  - apply list_elem_of_here.
  - exists r. exact L.
Defined.

(** ** More on retrieval *)

Section RetrievalMore.
Variable ext : externals.

(** The extractor leaves the store alone and shows at most one error. *)
Lemma parse_query_with_groq_world (query : string) (w : world) :
  exists events,
    (parse_query_with_groq ext query w).2 = shows events w
    /\ (events = [] \/ exists m, events = [UiError m]).
Proof.
  assert (forall raw e,
             exists events,
               (on_exception raw e w).2 = shows events w
               /\ (events = [] \/ exists m, events = [UiError m])) as Handler.
  { intros [raw|] e; destruct e;
      try (eexists [UiError _]; split; [reflexivity|right; eauto]).
    exists []. rewrite shows_nil. split; [reflexivity|left; reflexivity]. }
  rewrite parse_query_with_groq_cases.
  destruct (groq_create ext query) as [[|[content|] rest]|e];
    try apply Handler.
  cbv zeta. destruct (nonempty (strip content)).
  - destruct (json_loads ext (strip content)) as [parsed|e]; [|apply Handler].
    destruct (has_name parsed).
    + exists []. rewrite shows_nil. split; [reflexivity|left; reflexivity].
    + eexists [UiError _]. split; [reflexivity|right; eauto].
  - eexists [UiError _]. split; [reflexivity|right; eauto].
Qed.

Lemma parse_query_with_groq_store (query : string) (w w1 : world)
    (r : result value) :
  parse_query_with_groq ext query w = (r, w1) ->
  table w1 = table w /\ faults w1 = faults w.
Proof.
  intros P. destruct (parse_query_with_groq_world query w) as (events & E & _).
  rewrite P in E. cbn [snd] in E. subst w1. split; reflexivity.
Qed.

Lemma load_interaction_after (n : value) (w1 w2 : world)
    (r : result (option string)) :
  load_interaction ext n w1 = (r, w2) -> w2 = tick w1.
Proof.
  intros L. pose proof (load_interaction_world ext n w1) as W.
  rewrite L in W. exact W.
Qed.

Lemma retrieve_tab_table (query : string) (w : world) :
  table (retrieve_tab ext query w).2 = table w.
Proof.
  destruct query as [|c query]; [reflexivity|].
  rewrite retrieve_tab_cases by discriminate.
  destruct (parse_query_with_groq ext (String c query) w) as [[result|e] w1] eqn:P;
    destruct (parse_query_with_groq_store _ _ _ _ P) as [T _]; [|exact T].
  destruct (intent_of result) as [n|m|]; [|exact T..].
  destruct (load_interaction ext n w1) as [[[d|]|e] w2] eqn:L;
    rewrite (load_interaction_after _ _ _ _ L); exact T.
Qed.

End RetrievalMore.

(** X17. The extractor has three outcomes. It raises [UnboundLocalError],
    with the world untouched, exactly when the model call raises
    [JSONDecodeError]; otherwise it returns a dict with a [name] key: either
    the parsed reply, nothing shown, or the empty result after one error.
    The table and the store's schedule are never touched. *)
Theorem parse_query_with_groq_outcome
    (ext : externals) (query : string) (w : world) :
  ((exists msg, groq_create ext query = Raise (JSONDecodeError msg))
   /\ parse_query_with_groq ext query w = (Raise UnboundLocalError, w))
  \/ ((forall msg, groq_create ext query <> Raise (JSONDecodeError msg))
      /\ exists v,
          has_name v = true
          /\ (parse_query_with_groq ext query w = (Ok v, w)
              \/ (v = empty_result
                  /\ exists m,
                      parse_query_with_groq ext query w
                      = (Ok v, shows [UiError m] w)))).
Proof.
  rewrite parse_query_with_groq_cases.
  assert (forall raw e,
             (forall msg, raw = None -> e <> JSONDecodeError msg) ->
             exists m, on_exception raw e w
                       = (Ok empty_result, shows [UiError m] w)) as Handler.
  { intros [raw|] e N; [apply on_exception_bound|].
    eexists. apply on_exception_other. intros msg. exact (N msg eq_refl). }
  destruct (groq_create ext query) as [[|[content|] rest]|e] eqn:C.
  - right. split; [discriminate|]. exists empty_result. split; [reflexivity|].
    right. split; [reflexivity|]. apply Handler. discriminate.
  - cbv zeta. right. split; [discriminate|].
    destruct (nonempty (strip content)).
    + destruct (json_loads ext (strip content)) as [parsed|e].
      * destruct (has_name parsed) eqn:H.
        -- exists parsed. split; [exact H|left; reflexivity].
        -- exists empty_result. split; [reflexivity|]. right. eauto.
      * exists empty_result. split; [reflexivity|]. right.
        split; [reflexivity|]. apply Handler. discriminate.
    + exists empty_result. split; [reflexivity|]. right. eauto.
  - right. split; [discriminate|]. exists empty_result. split; [reflexivity|].
    right. split; [reflexivity|]. apply Handler. discriminate.
  - destruct e; try (right; split; [discriminate|]; exists empty_result;
                     split; [reflexivity|]; right; split; [reflexivity|];
                     eexists; reflexivity).
    left. split; [eauto|reflexivity].
Qed.

(** X18. A reply whose first choice, stripped, is not empty and parses to a
    dict with a [name] key is returned as parsed, with nothing shown; the
    other choices and the whitespace around the body play no part. *)
Theorem parse_query_with_groq_valid_reply
    (ext : externals) (query content : string) (rest : chat_completion)
    (parsed : value) (w : world) :
  groq_create ext query = Ok (Some content :: rest) ->
  strip content <> "" ->
  json_loads ext (strip content) = Ok parsed ->
  has_name parsed = true ->
  parse_query_with_groq ext query w = (Ok parsed, w).
Proof.
  intros C NE J H. rewrite parse_query_with_groq_cases, C. cbv zeta.
  rewrite (proj2 (nonempty_true _) NE), J, H. reflexivity.
Qed.

Lemma parse_query_with_groq_valid_reply_witness :
  parse_query_with_groq (names_person "John" (scores 0))
    "what did I discuss with John" (World [] [] [])
  = (Ok (PyDict [("name", PyStr "John"); ("message", PyNone)]),
     World [] [] []).
Proof.
  apply (parse_query_with_groq_valid_reply (names_person "John" (scores 0))
           "what did I discuss with John" "{name: n, message: null}" []);
    try reflexivity.
  discriminate.
Defined.

(** X19. Retrieval never writes: whatever the query, the model and the
    store do, the table after the retrieve handler is the table before. *)
Theorem retrieve_tab_read_only (ext : externals) (query : string) (w : world) :
  table (retrieve_tab ext query w).2 = table w.
Proof. apply retrieve_tab_table. Qed.



(** X21. The retrieve handler has no handler for the lookup: with a name
    extracted, a store failure on the read leaves the handler as raised, and
    a name that is not a [str] leaves it as [AttributeError]; in both cases
    nothing more is shown. *)
Theorem retrieve_tab_lookup_raises
    (ext : externals) (query : string) (w w1 : world)
    (result n : value) :
  query <> "" ->
  parse_query_with_groq ext query w = (Ok result, w1) ->
  intent_of result = IName n ->
  (forall e, next_fault w1 = Some e ->
             retrieve_tab ext query w = (Raise e, tick w1))
  /\ (store_answers w1 -> (forall s, n <> PyStr s) ->
      retrieve_tab ext query w = (Raise AttributeError, tick w1)).
Proof.
  intros NE P I. rewrite (retrieve_tab_cases ext query w NE), P, I. split.
  - intros e F. rewrite (load_interaction_fault _ _ _ _ F). reflexivity.
  - intros F N. rewrite (load_interaction_not_str _ _ _ F N). reflexivity.
Qed.

Lemma retrieve_tab_lookup_raises_witness :
  retrieve_tab
    (canned (Ok [Some "{name: 5, message: null}"])
            (Ok (PyDict [("name", PyNum "5"); ("message", PyNone)]))
            (scores 0))
    "who is 5" (World [Row "John" "lunch"] [] [])
  = (Raise AttributeError, World [Row "John" "lunch"] [] []).
Proof.
  apply (proj2 (retrieve_tab_lookup_raises
                  (canned (Ok [Some "{name: 5, message: null}"])
                          (Ok (PyDict [("name", PyNum "5"); ("message", PyNone)]))
                          (scores 0))
                  "who is 5" (World [Row "John" "lunch"] [] [])
                  (World [Row "John" "lunch"] [] [])
                  (PyDict [("name", PyNum "5"); ("message", PyNone)])
                  (PyNum "5") ltac:(discriminate) eq_refl eq_refl));
    [reflexivity|discriminate].
Defined.

(** X22. Log, then retrieve: after a log-tab submission of a non-empty name
    and non-empty details whose normalized name was not stored, the store
    answering, a query for which the extractor gives a name of that
    normalized form shows the submitted details. *)
Theorem log_then_retrieve
    (ext : externals) (person_name details query n : string)
    (w w1 : world) (result : value) :
  person_name <> "" -> details <> "" ->
  store_answers w -> store_answers (tick w) ->
  normalize_name person_name ∉ normalized_names (table w) ->
  query <> "" ->
  parse_query_with_groq ext query (log_tab person_name details w).2
  = (Ok result, w1) ->
  intent_of result = IName (PyStr n) ->
  normalize_name n = normalize_name person_name ->
  store_answers w1 ->
  retrieve_tab ext query (log_tab person_name details w).2
  = (Ok tt, shows (found (PyStr n) details) (tick w1)).
Proof.
  intros N1 N2 F1 F2 New Q P I E F3.
  rewrite (retrieve_tab_cases ext query _ Q), P, I.
  destruct (parse_query_with_groq_store _ _ _ _ _ P) as [T _].
  assert (table (log_tab person_name details w).2
          = table w ++ [Row person_name details]) as L.
  { rewrite log_tab_cases.
    rewrite (proj2 (nonempty_true _) N1), (proj2 (nonempty_true _) N2).
    cbn [negb orb]. rewrite save_interaction_cases, F1, F2.
    rewrite (bool_decide_eq_false_2 _ New). reflexivity. }
  rewrite (load_interaction_exact ext n w1 (Row person_name details) F3).
  - cbn [row_details]. rewrite (proj2 (nonempty_true _) N2). reflexivity.
  - rewrite T, L, interactions_get_snoc, E. cbn [row_name row_details].
    rewrite String.eqb_refl. reflexivity.
  - exact N2.
Qed.

Lemma log_then_retrieve_witness :
  retrieve_tab (names_person "pritha" (scores 0))
    "what did I discuss with pritha"
    (log_tab "Pritha" "discussed project X" (World [] [] [])).2
  = (Ok tt,
     World [Row "Pritha" "discussed project X"] []
           ([UiSuccess (MsgSaved "Pritha")]
            ++ found (PyStr "pritha") "discussed project X")).
Proof.
  apply (log_then_retrieve (names_person "pritha" (scores 0))
           "Pritha" "discussed project X"
           "what did I discuss with pritha" "pritha"
           (World [] [] [])
           (World [Row "Pritha" "discussed project X"] []
                  [UiSuccess (MsgSaved "Pritha")])
           (PyDict [("name", PyStr "pritha"); ("message", PyNone)]));
    try reflexivity; try discriminate.
  intros []%elem_of_nil.
Defined.
